(** * fix-supabase-imports.py: a shallow embedding and its properties

    The script rewrites a fixed list of TypeScript route files: it replaces the
    legacy Supabase import by a mode-specific one and inserts a statement that
    constructs the client.  Everything it does to a file is text surgery with
    [str.replace], [in], [str.split] and three regular expressions, so the
    embedding consists of

    - Python strings as lists of code points, with the string operations the
      script calls;
    - a backtracking matcher for the regular-expression fragment the three
      patterns are written in, with [re.search] and [re.sub(..., count=1)];
    - the filesystem and the console as an explicit world threaded through a
      state-and-exception monad;
    - [fix_file] and the driver loop, statement by statement. *)

From Stdlib Require Import String Ascii.
From Stdlib Require Import List NArith Bool Arith Lia.
Import ListNotations.
Local Open Scope list_scope.

(** ** Text *)

(** A Python [str] is a sequence of Unicode code points. *)
Definition char := N.
Definition text := list char.

(** A literal of the script (all of them are plain ASCII). *)
Definition lit (s : string) : text := map N_of_ascii (list_ascii_of_string s).

(** ['\n'] *)
Definition NL : char := 10%N.

(** [s.startswith(p)] *)
Fixpoint starts_with (p s : text) : bool :=
  match p, s with
  | [], _ => true
  | _ :: _, [] => false
  | a :: p', b :: s' => N.eqb a b && starts_with p' s'
  end.

(** [n in s] *)
Fixpoint str_in (n s : text) : bool :=
  starts_with n s ||
  match s with
  | [] => false
  | _ :: s' => str_in n s'
  end.

(** [s.find(n)], with [None] for Python's [-1]. *)
Fixpoint str_find (n s : text) : option nat :=
  if starts_with n s then Some 0
  else match s with
       | [] => None
       | _ :: s' => option_map S (str_find n s')
       end.

(** [s.replace(old, new)] for a non-empty [old] (the only use in the script):
    the occurrences of [old] are found from left to right, each search
    resuming after the previous occurrence, and every one is replaced.
    [fuel] bounds the number of occurrences. *)
Fixpoint replace_fuel (fuel : nat) (old new s : text) : text :=
  match fuel with
  | 0 => s
  | S fuel' =>
      match str_find old s with
      | None => s
      | Some i => firstn i s ++ new ++ replace_fuel fuel' old new (skipn (i + length old) s)
      end
  end.

Definition str_replace (old new s : text) : text :=
  replace_fuel (length s) old new s.

(** [s.split('\n')] *)
Fixpoint split_nl (s : text) : list text :=
  match s with
  | [] => [[]]
  | c :: s' =>
      if N.eqb c NL then [] :: split_nl s'
      else match split_nl s' with
           | l :: ls => (c :: l) :: ls
           | [] => [[c]]
           end
  end.

(** [a == b] on strings *)
Fixpoint text_eqb (a b : text) : bool :=
  match a, b with
  | [], [] => true
  | x :: a', y :: b' => N.eqb x y && text_eqb a' b'
  | _, _ => false
  end.

(** The number of positions of [s] at which [n] occurs; the specification's
    "present exactly once" is [occ n s = 1]. *)
Fixpoint occ (n s : text) : nat :=
  (if starts_with n s then 1 else 0) +
  match s with
  | [] => 0
  | _ :: s' => occ n s'
  end.

(** ** Regular expressions *)

(** The fragment the script's patterns use: literals, and quantifiers over a
    single character class.  Groups only matter through [\1], and in both
    substitutions group 1 spans the whole pattern. *)
Inductive atom : Type :=
| Lit (l : text)                  (* l *)
| Plus (c : char -> bool)         (* c+ *)
| Star (c : char -> bool)         (* c* *)
| LazyStar (c : char -> bool)     (* c*? *)
| Opt (l : text).                 (* (l)? *)

Definition regex := list atom.

(** Drops the prefix [p] of [s], if it is one. *)
Fixpoint strip (p s : text) : option text :=
  match p, s with
  | [], _ => Some s
  | _ :: _, [] => None
  | a :: p', b :: s' => if N.eqb a b then strip p' s' else None
  end.

Definition orelse (x y : option text) : option text :=
  match x with
  | Some _ => x
  | None => y
  end.

(** Python's [re] is a backtracking matcher: alternatives are tried in
    priority order and the first that lets the rest of the pattern match
    wins.  [k] is the rest of the pattern; a matcher returns the text that
    remains after the whole match. *)
Fixpoint greedy_star (c : char -> bool) (k : text -> option text) (s : text) : option text :=
  match s with
  | x :: s' => if c x then orelse (greedy_star c k s') (k s) else k s
  | [] => k s
  end.

Fixpoint lazy_star (c : char -> bool) (k : text -> option text) (s : text) : option text :=
  match k s with
  | Some r => Some r
  | None =>
      match s with
      | x :: s' => if c x then lazy_star c k s' else None
      | [] => None
      end
  end.

Definition match_atom (a : atom) (k : text -> option text) (s : text) : option text :=
  match a with
  | Lit l => match strip l s with
             | Some s' => k s'
             | None => None
             end
  | Plus c => match s with
              | x :: s' => if c x then greedy_star c k s' else None
              | [] => None
              end
  | Star c => greedy_star c k s
  | LazyStar c => lazy_star c k s
  | Opt l => match strip l s with
             | Some s' => orelse (k s') (k s)
             | None => k s
             end
  end.

Fixpoint match_seq (p : regex) (k : text -> option text) : text -> option text :=
  match p with
  | [] => k
  | a :: p' => match_atom a (match_seq p' k)
  end.

(** The match of [p] anchored at the start of [s]: what remains of [s]. *)
Definition match_here (p : regex) (s : text) : option text :=
  match_seq p Some s.

(** A match object: [m.start()] and [m.end()]. *)
Record re_match : Type := { m_start : nat; m_end : nat }.

(** [re.search(p, s)]: the match at the leftmost position that has one. *)
Fixpoint search_from (p : regex) (pos : nat) (s : text) : option re_match :=
  match match_here p s with
  | Some rest => Some {| m_start := pos; m_end := pos + (length s - length rest) |}
  | None =>
      match s with
      | [] => None
      | _ :: s' => search_from p (S pos) s'
      end
  end.

Definition re_search (p : regex) (s : text) : option re_match :=
  search_from p 0 s.

(** [s[i:j]] *)
Definition slice (s : text) (i j : nat) : text := firstn (j - i) (skipn i s).

(** [re.sub(p, r'\1' + tail, s, count=1)] for a pattern [p] that is one group:
    the leftmost match is replaced by itself followed by [tail]. *)
Definition re_sub1 (p : regex) (tail s : text) : text :=
  match re_search p s with
  | Some m => firstn (m_start m) s ++ (slice s (m_start m) (m_end m) ++ tail) ++ skipn (m_end m) s
  | None => s
  end.

(** Character classes.  [\s] on a [str] pattern is Unicode white space. *)
Definition is_space (c : char) : bool :=
  ((9 <=? c) && (c <=? 13) || (28 <=? c) && (c <=? 32) || (c =? 133) || (c =? 160)
   || (c =? 5760) || (8192 <=? c) && (c <=? 8202) || (c =? 8232) || (c =? 8233)
   || (c =? 8239) || (c =? 8287) || (c =? 12288))%N.

(** [.] without DOTALL *)
Definition not_newline (c : char) : bool := negb (N.eqb c NL).

(** [[^)]] *)
Definition not_rparen (c : char) : bool := negb (N.eqb c 41%N).

(** ** The world: files and console *)

(** What a path names.  [TextFile] is a regular file that can be read as text
    and written; its content is the text Python's text mode hands out.
    [Directory] stands for what exists but cannot be opened as a file. *)
Inductive entry : Type :=
| Missing
| Directory
| TextFile (content : text).

(** The lines the script prints. *)
Inductive report : Type :=
| Banner                                        (* "Fixing Supabase imports in API routes..." *)
| FileNotFound (filepath : string)              (* "File not found: {filepath}" *)
| AlreadyFixed (filepath : string)              (* "Already fixed or doesn't need fixing: {filepath}" *)
| Fixed (filepath auth_type : string)           (* "Fixed: {filepath} (auth type: {auth_type})" *)
| CouldNotFix (filepath : string)               (* "Could not automatically fix: {filepath}" *)
| SummaryFixed (fixed_count : nat)              (* "Successfully fixed: {fixed_count} files" *)
| SummaryFailed (failed_count : nat).           (* "Failed or need manual review: {failed_count} files" *)

Record world : Type := { files : string -> entry; console : list report }.

Inductive exn : Type :=
| IsADirectoryError (filepath : string).

Inductive result (A : Type) : Type :=
| Returned (a : A)
| Raised (e : exn).

Arguments Returned {A} a.
Arguments Raised {A} e.

(** Statements run in a world and either return or raise. *)
Definition M (A : Type) : Type := world -> result A * world.

Definition ret {A : Type} (a : A) : M A := fun w => (Returned a, w).

Definition bind {A B : Type} (m : M A) (f : A -> M B) : M B :=
  fun w =>
    match m w with
    | (Returned a, w') => f a w'
    | (Raised e, w') => (Raised e, w')
    end.

Definition raise {A : Type} (e : exn) : M A := fun w => (Raised e, w).

Notation "x <- m ;; f" := (bind m (fun x => f))
  (at level 61, m at next level, right associativity).
Notation "m ;;; f" := (bind m (fun _ => f))
  (at level 61, right associativity).

(** [print(...)] *)
Definition print (r : report) : M unit :=
  fun w => (Returned tt, {| files := files w; console := console w ++ [r] |}).

(** [os.path.exists(filepath)] *)
Definition path_exists (filepath : string) : M bool :=
  fun w =>
    match files w filepath with
    | Missing => (Returned false, w)
    | _ => (Returned true, w)
    end.

(** [with open(filepath, 'r') as f: content = f.read()] *)
Definition read_text (filepath : string) : M text :=
  fun w =>
    match files w filepath with
    | TextFile content => (Returned content, w)
    | _ => (Raised (IsADirectoryError filepath), w)
    end.

Definition set_file (fs : string -> entry) (filepath : string) (e : entry) : string -> entry :=
  fun p => if String.eqb p filepath then e else fs p.

(** [with open(filepath, 'w') as f: f.write(content)] *)
Definition write_text (filepath : string) (content : text) : M unit :=
  fun w =>
    match files w filepath with
    | Directory => (Raised (IsADirectoryError filepath), w)
    | _ => (Returned tt, {| files := set_file (files w) filepath (TextFile content);
                            console := console w |})
    end.

(** ** The script *)

(** The literals of [fix_file]. *)
Definition legacy_import : text := lit "import { supabase } from '@/lib/supabase'".
Definition user_import : text := lit "import { createClient } from '@/utils/supabase/server'".
Definition service_import : text :=
  lit "import { createServiceRoleClient } from '@/utils/supabase/service-role'".

Definition export_async_function : text := lit "export async function".
Definition export_function : text := lit "export function".
Definition try_open : text := lit "  try {".

(** The replacement templates after their [\1]. *)
Definition user_try_stmt : text := lit "    const supabase = await createClient()" ++ [NL].
Definition user_func_stmt : text := lit "  const supabase = await createClient()" ++ [NL].
Definition service_try_stmt : text := lit "    const supabase = createServiceRoleClient()" ++ [NL].
Definition service_func_stmt : text := lit "  const supabase = createServiceRoleClient()" ++ [NL].

(** [r'(\n\s+)(.*?)(await )?supabase\.'] *)
Definition first_usage_pattern : regex :=
  [Lit [NL]; Plus is_space; LazyStar not_newline; Opt (lit "await "); Lit (lit "supabase.")].

(** [r'(\n\s+try \{\n)'] *)
Definition try_pattern : regex :=
  [Lit [NL]; Plus is_space; Lit (lit "try {" ++ [NL])].

(** The static task list, in the dictionary's insertion order. *)
Definition files_to_fix : list (string * string) :=
  [ ("app/api/debug/env-check/route.ts", "service");
    ("app/api/health/route.ts", "service");
    ("app/api/metrics/route.ts", "service");
    ("app/api/webhooks/stripe/route.ts", "service");
    ("app/api/webhooks/crossmint/route.ts", "service");
    ("app/api/stripe/connect-webhook/route.ts", "service");
    ("app/api/cron/weekly-payouts/route.ts", "service");
    ("app/api/payment/create-crossmint-order/route.ts", "user");
    ("app/api/payment/create-payment-intent/route.ts", "user");
    ("app/api/payment/create-stripe-session/route.ts", "user");
    ("app/api/payment/manual-complete/route.ts", "user");
    ("app/api/payment/update-transaction/route.ts", "user");
    ("app/api/profile/verify-email/route.ts", "user");
    ("app/api/stripe/account-balance/route.ts", "user");
    ("app/api/stripe/account-session/route.ts", "user");
    ("app/api/stripe/connect-account/route.ts", "user");
    ("app/api/stripe/create-transfer/route.ts", "user");
    ("app/api/wallet/transactions/route.ts", "user");
    ("app/api/payouts/request/route.ts", "user");
    ("app/api/payouts/status/route.ts", "user") ]%string.

Section Script.

(** Python's table of alphanumeric code points ([str.isalnum]) beyond ASCII,
    which [\w] consults. *)
Variable uni_alnum : char -> bool.

(** [\w] on a [str] pattern *)
Definition is_word (c : char) : bool :=
  ((48 <=? c) && (c <=? 57) || (65 <=? c) && (c <=? 90) || (97 <=? c) && (c <=? 122)
   || (c =? 95) || (128 <=? c) && uni_alnum c)%N.

(** [r'(export async function \w+\([^)]*\) \{\n)'] *)
Definition func_pattern : regex :=
  [Lit (lit "export async function "); Plus is_word; Lit (lit "("); Star not_rparen;
   Lit (lit ") {" ++ [NL])].

(** The body of the backward loop once a declaration line is found: insert
    the construction statement after the first try-block opening when the
    file has a two-space-indented one, else after the first async exported
    function's opening line. *)
Definition insert_client (try_stmt func_stmt content : text) : text :=
  if str_in try_open content then re_sub1 try_pattern try_stmt content
  else re_sub1 func_pattern func_stmt content.

(** [for i in range(len(lines) - 1, -1, -1): if ... in lines[i]: ...; break],
    over the lines in the order the loop visits them. *)
Fixpoint scan_back (visited : list text) (try_stmt func_stmt content : text) : text :=
  match visited with
  | [] => content
  | line :: earlier =>
      if str_in export_async_function line || str_in export_function line
      then insert_client try_stmt func_stmt content
      else scan_back earlier try_stmt func_stmt content
  end.

(** One branch of [if auth_type == 'user': ... elif auth_type == 'service': ...];
    the two differ in these three literals only. *)
Definition migrate (new_import try_stmt func_stmt content : text) : text :=
  let content := str_replace legacy_import new_import content in
  match re_search first_usage_pattern content with
  | Some m =>
      let lines := split_nl (firstn (m_start m) content) in
      scan_back (rev lines) try_stmt func_stmt content
  | None => content
  end.

Definition rewrite (auth_type : string) (content : text) : text :=
  if String.eqb auth_type "user" then
    migrate user_import user_try_stmt user_func_stmt content
  else if String.eqb auth_type "service" then
    migrate service_import service_try_stmt service_func_stmt content
  else content.

Definition fix_file (filepath auth_type : string) : M bool :=
  found <- path_exists filepath ;;
  if negb found then
    print (FileNotFound filepath) ;;; ret false
  else
    content <- read_text filepath ;;
    if negb (str_in legacy_import content) then
      print (AlreadyFixed filepath) ;;; ret true
    else
      let original_content := content in
      let content := rewrite auth_type content in
      if negb (text_eqb content original_content) then
        write_text filepath content ;;;
        print (Fixed filepath auth_type) ;;;
        ret true
      else
        print (CouldNotFix filepath) ;;; ret false.

(** [for filepath, auth_type in files_to_fix.items(): ...] with its two
    counters. *)
Fixpoint process (tasks : list (string * string)) (fixed_count failed_count : nat)
  : M (nat * nat) :=
  match tasks with
  | [] => ret (fixed_count, failed_count)
  | (filepath, auth_type) :: rest =>
      ok <- fix_file filepath auth_type ;;
      if ok then process rest (S fixed_count) failed_count
      else process rest fixed_count (S failed_count)
  end.

(** The module's top level. *)
Definition main : M (nat * nat) :=
  print Banner ;;;
  counts <- process files_to_fix 0 0 ;;
  print (SummaryFixed (fst counts)) ;;;
  (if 0 <? snd counts then print (SummaryFailed (snd counts)) else ret tt) ;;;
  ret counts.

End Script.

(** ** Vocabulary of the statements *)

(** [s.endswith(p)] *)
Definition ends_with (p s : text) : bool := starts_with (rev p) (rev s).

(** [a] followed by [t] creates no occurrence of [n] that starts in [a] and
    none is lost: at every position of [a], [n] starts in [a ++ t] exactly
    when it does in [a]. *)
Definition agree (n a t : text) : Prop :=
  forall x a', a = x ++ a' -> a' <> [] -> starts_with n (a' ++ t) = starts_with n a'.

(** No occurrence of [n] can lie across a border of a block [m] set between
    two texts: no proper part of [n] ends [m], starts [m], or starts with
    [m].  A decidable check on the two literals. *)
Definition straddle_free (n m : text) : bool :=
  match n with
  | [] => false
  | _ :: _ =>
      forallb
        (fun k => negb (ends_with (firstn k n) m)
                  && negb (starts_with (skipn k n) m)
                  && negb (starts_with m (skipn k n)))
        (seq 1 (length n - 1))
  end.

(** The texts an atom and a pattern match, whatever the order in which the
    matcher tries the alternatives. *)
Definition atom_lang (a : atom) (m : text) : Prop :=
  match a with
  | Lit l => m = l
  | Plus c => m <> [] /\ forallb c m = true
  | Star c => forallb c m = true
  | LazyStar c => forallb c m = true
  | Opt l => m = l \/ m = []
  end.

Fixpoint regex_lang (p : regex) (m : text) : Prop :=
  match p with
  | [] => m = []
  | a :: p' => exists m1 m2, m = m1 ++ m2 /\ atom_lang a m1 /\ regex_lang p' m2
  end.

(** A statement [tail] inserted after a line break neither creates nor
    destroys an occurrence of the literal [n]. *)
Definition inert (n tail : text) : bool :=
  straddle_free n [NL] && straddle_free n ([NL] ++ tail)
  && (occ n [NL] =? 0) && (occ n ([NL] ++ tail) =? 0).

(** Every match of the pattern ends with a line break. *)
Definition ends_nl (p : regex) : Prop :=
  forall m, regex_lang p m -> exists m0, m = m0 ++ [NL].

(** The two modes of the task list and what each one puts into a file. *)
Definition is_mode (auth_type : string) : Prop :=
  auth_type = "user"%string \/ auth_type = "service"%string.

Definition replacement_import (auth_type : string) : text :=
  if String.eqb auth_type "user" then user_import else service_import.

Definition try_stmt_of (auth_type : string) : text :=
  if String.eqb auth_type "user" then user_try_stmt else service_try_stmt.

Definition func_stmt_of (auth_type : string) : text :=
  if String.eqb auth_type "user" then user_func_stmt else service_func_stmt.

(** The pattern [p] has a match somewhere in [s]. *)
Definition matches_in (p : regex) (s : text) : Prop :=
  exists a m r, s = a ++ m ++ r /\ regex_lang p m.

(** A table for the concrete runs below: their files are plain ASCII, so the
    table is never consulted. *)
Definition no_alnum_beyond_ascii (c : char) : bool := false.

(** A world with one entry at [filepath] and nothing printed yet. *)
Definition single (filepath : string) (e : entry) : world :=
  {| files := set_file (fun _ => Missing) filepath e; console := [] |}.

(** The five ways a call of [fix_file] can go. *)
Inductive outcome (uni_alnum : char -> bool) (filepath auth_type : string) (w : world)
  : result bool -> world -> Prop :=
| NotFound :
    files w filepath = Missing ->
    outcome uni_alnum filepath auth_type w (Returned false)
      {| files := files w; console := console w ++ [FileNotFound filepath] |}
| Unreadable :
    files w filepath = Directory ->
    outcome uni_alnum filepath auth_type w (Raised (IsADirectoryError filepath)) w
| Clean content :
    files w filepath = TextFile content ->
    str_in legacy_import content = false ->
    outcome uni_alnum filepath auth_type w (Returned true)
      {| files := files w; console := console w ++ [AlreadyFixed filepath] |}
| Rewritten content :
    files w filepath = TextFile content ->
    str_in legacy_import content = true ->
    is_mode auth_type ->
    outcome uni_alnum filepath auth_type w (Returned true)
      {| files := set_file (files w) filepath
                    (TextFile (rewrite uni_alnum auth_type content));
         console := console w ++ [Fixed filepath auth_type] |}
| Untouched content :
    files w filepath = TextFile content ->
    str_in legacy_import content = true ->
    ~ is_mode auth_type ->
    outcome uni_alnum filepath auth_type w (Returned false)
      {| files := files w; console := console w ++ [CouldNotFix filepath] |}.

(** Replacing the import, in either mode, neither creates nor destroys an
    occurrence of the literal [n]. *)
Definition neutral (n : text) : bool :=
  straddle_free n legacy_import && (occ n legacy_import =? 0)
  && straddle_free n user_import && (occ n user_import =? 0)
  && straddle_free n service_import && (occ n service_import =? 0).

(** The status lines and the summary the driver prints after the banner. *)
Definition summary (fixed_count failed_count : nat) : list report :=
  SummaryFixed fixed_count ::
  (if 0 <? failed_count then [SummaryFailed failed_count] else []).

(** The longest prefix of [s] within the class [f], and what follows it. *)
Fixpoint take_while (f : char -> bool) (s : text) : text :=
  match s with
  | [] => []
  | c :: s' => if f c then c :: take_while f s' else []
  end.

Fixpoint drop_while (f : char -> bool) (s : text) : text :=
  match s with
  | [] => []
  | c :: s' => if f c then drop_while f s' else s
  end.

(** The first line of [s] that is not blank, without its indentation,
    mentions the legacy client: what a match of the usage pattern has after
    its leading line break. *)
Definition usage_line (s : text) : bool :=
  str_in (lit "supabase.") (take_while not_newline (drop_while is_space s)).

(** A text made of complete lines. *)
Definition whole_lines (t : text) : Prop :=
  t = [] \/ exists t0, t = t0 ++ [NL].

(** The file of the end-to-end property: a header [pre] with the legacy
    import and an exported function, then a try-block opening that is
    indented and alone on its line, then the block, where after the complete
    lines [stmts] a line with indentation [w] and beginning [l] uses the
    client, as in [const { data } = await supabase.from(...)]. *)
Definition try_block_body (stmts w l rest : text) : text :=
  stmts ++ w ++ l ++ lit "supabase." ++ rest.

Definition try_block_file (pre ind stmts w l rest : text) : text :=
  pre ++ [NL] ++ ind ++ try_open ++ [NL] ++ try_block_body stmts w l rest.

(** The header has the import and the declaration of an exported function,
    async or not; the client is not used and no try block is opened before
    this one, and the import is not repeated inside the block. *)
Definition try_block_shape (pre ind stmts w l rest : text) : Prop :=
  str_in legacy_import pre = true /\
  (str_in export_async_function pre = true \/ str_in export_function pre = true) /\
  str_in (lit "supabase.") pre = false /\
  str_in (lit "try {" ++ [NL]) (pre ++ [NL]) = false /\
  forallb is_space ind = true /\
  whole_lines stmts /\
  w <> [] /\ forallb is_space w = true /\
  forallb not_newline l = true /\
  str_in legacy_import (try_block_body stmts w l rest) = false.

(** The same file after the migration in mode [auth_type]: the import
    replaced in the header and the mode's statement right after the
    try-block opening. *)
Definition migrated_file (auth_type : string) (pre ind stmts w l rest : text) : text :=
  str_replace legacy_import (replacement_import auth_type) pre
  ++ [NL] ++ ind ++ try_open ++ [NL]
  ++ try_stmt_of auth_type ++ try_block_body stmts w l rest.

(** ** Concrete files *)

(** A text given by its lines, each ended by a line break. *)
Definition source (ls : list string) : text :=
  flat_map (fun s => lit s ++ [NL]) ls.

(** A route in the shape of the end-to-end property, in its parts. *)
Definition route_pre : text :=
  legacy_import ++ [NL] ++ [NL] ++ lit "export async function GET(request: Request) {".
Definition route_stmts : text := lit "    const id = request.url" ++ [NL].
Definition route_indent : text := lit "    ".
Definition route_line : text := lit "const { data } = await ".
Definition route_rest : text :=
  lit "from('orders').select()" ++ [NL]
  ++ source ["    return Response.json(data)"; "  } catch (e) {";
             "    return Response.error()"; "  }"; "}"]%string.

Definition route : text :=
  try_block_file route_pre [] route_stmts route_indent route_line route_rest.

(** A module that imports the client and never uses it. *)
Definition unused_import : text :=
  source ["import { supabase } from '@/lib/supabase'"; "export const runtime = 'edge'"]%string.

(** A route that imports the client twice. *)
Definition double_import : text :=
  source ["import { supabase } from '@/lib/supabase'";
          "import { supabase } from '@/lib/supabase'";
          "export async function GET() {";
          "  try {";
          "    const { data } = await supabase.from('orders').select()";
          "    return Response.json(data)";
          "  } catch (e) {";
          "    return Response.error()";
          "  }";
          "}"]%string.

(** A module whose use of the client is in a plain exported function, after
    an async one that does not use it. *)
Definition mixed_exports : text :=
  source ["import { supabase } from '@/lib/supabase'";
          "export async function a() {";
          "  return 1";
          "}";
          "export function b() {";
          "  return supabase.from('orders')";
          "}"]%string.

(** A file that was migrated before. *)
Definition migrated_before : text :=
  source ["import { createClient } from '@/utils/supabase/server'";
          "export async function GET() {";
          "  const supabase = await createClient()";
          "  return Response.json([])";
          "}"]%string.

(** A disk without any of the listed files. *)
Definition empty_disk : world := {| files := fun _ => Missing; console := [] |}.

(** Two paths of the task list. *)
Definition status_route : string := "app/api/payouts/status/route.ts".
Definition health_route : string := "app/api/health/route.ts".

(** What the concrete files become in mode "user". *)
Definition unused_import_migrated : text :=
  source ["import { createClient } from '@/utils/supabase/server'";
          "export const runtime = 'edge'"]%string.

Definition double_import_migrated : text :=
  source ["import { createClient } from '@/utils/supabase/server'";
          "import { createClient } from '@/utils/supabase/server'";
          "export async function GET() {";
          "  try {";
          "    const supabase = await createClient()";
          "    const { data } = await supabase.from('orders').select()";
          "    return Response.json(data)";
          "  } catch (e) {";
          "    return Response.error()";
          "  }";
          "}"]%string.

Definition mixed_exports_migrated : text :=
  source ["import { createClient } from '@/utils/supabase/server'";
          "export async function a() {";
          "  const supabase = await createClient()";
          "  return 1";
          "}";
          "export function b() {";
          "  return supabase.from('orders')";
          "}"]%string.

(** The header of [route] with a plain exported function, and the route it
    gives. *)
Definition handler_pre : text :=
  legacy_import ++ [NL] ++ [NL] ++ lit "export function GET(request: Request) {".

Definition handler : text :=
  try_block_file handler_pre [] route_stmts route_indent route_line route_rest.

(** A route whose try-block opening has a comment behind it. *)
Definition guarded_try : text :=
  source ["import { supabase } from '@/lib/supabase'";
          "export async function GET() {";
          "  try { // guarded";
          "    const { data } = await supabase.from('orders').select()";
          "    return Response.json(data)";
          "  } catch (e) {";
          "    return Response.error()";
          "  }";
          "}"]%string.

Definition guarded_try_migrated : text :=
  source ["import { createClient } from '@/utils/supabase/server'";
          "export async function GET() {";
          "  try { // guarded";
          "    const { data } = await supabase.from('orders').select()";
          "    return Response.json(data)";
          "  } catch (e) {";
          "    return Response.error()";
          "  }";
          "}"]%string.

(** A route whose handler has a comment above it that names the client. *)
Definition commented_header : text :=
  source ["import { supabase } from '@/lib/supabase'";
          "/**";
          " * Reads the orders with supabase.from";
          " */";
          "export async function GET() {";
          "  try {";
          "    const { data } = await supabase.from('orders').select()";
          "    return Response.json(data)";
          "  } catch (e) {";
          "    return Response.error()";
          "  }";
          "}"]%string.

Definition commented_header_migrated : text :=
  source ["import { createServiceRoleClient } from '@/utils/supabase/service-role'";
          "/**";
          " * Reads the orders with supabase.from";
          " */";
          "export async function GET() {";
          "  try {";
          "    const { data } = await supabase.from('orders').select()";
          "    return Response.json(data)";
          "  } catch (e) {";
          "    return Response.error()";
          "  }";
          "}"]%string.

(** A module like [mixed_exports] whose async function declares its return
    type. *)
Definition annotated_exports : text :=
  source ["import { supabase } from '@/lib/supabase'";
          "export async function a(): Promise<number> {";
          "  return 1";
          "}";
          "export function b() {";
          "  return supabase.from('orders')";
          "}"]%string.

(** The disk after a first run over [route] in mode "user". *)
Definition route_after_user : world :=
  snd (fix_file no_alnum_beyond_ascii status_route "user"
         (single status_route (TextFile route))).

(** ** Vocabulary of the further properties *)

(** [os.path.exists] as a function of the disk. *)
Definition exists_on (w : world) (filepath : string) : bool :=
  match files w filepath with
  | Missing => false
  | _ => true
  end.

(** The file at [filepath], if it is a text file, has no legacy import. *)
Definition migrated_at (w : world) (filepath : string) : Prop :=
  forall content, files w filepath = TextFile content ->
                  str_in legacy_import content = false.

(** The path a status line is about. *)
Definition report_path (r : report) : option string :=
  match r with
  | FileNotFound p | AlreadyFixed p | Fixed p _ | CouldNotFix p => Some p
  | Banner | SummaryFixed _ | SummaryFailed _ => None
  end.

(** Every task of the list has one of the two modes. *)
Definition modes_known (tasks : list (string * string)) : Prop :=
  forall filepath auth_type, In (filepath, auth_type) tasks -> is_mode auth_type.

(** No task's path names something that cannot be opened. *)
Definition openable (tasks : list (string * string)) (w : world) : Prop :=
  forall filepath auth_type, In (filepath, auth_type) tasks ->
                             files w filepath <> Directory.

(** A file for the fallback substitution: a header [pre], the first async
    exported function of the file with its parameter list on the
    declaration line, and a body that, after the complete lines [stmts],
    uses the client on a line with indentation [w] and beginning [l]. *)
Definition usage_body (stmts w l rest : text) : text :=
  stmts ++ w ++ l ++ lit "supabase." ++ rest.

Definition async_function_file (pre name args body : text) : text :=
  pre ++ lit "export async function " ++ name ++ lit "(" ++ args ++ lit ") {"
  ++ [NL] ++ body.

Definition async_function_shape (uni_alnum : char -> bool)
    (pre name args stmts w l rest : text) : Prop :=
  str_in legacy_import pre = true /\
  str_in (lit "export async function ") pre = false /\
  name <> [] /\ forallb (is_word uni_alnum) name = true /\
  forallb not_rparen args = true /\
  str_in (lit "supabase.")
    (pre ++ lit "export async function " ++ name ++ lit "(" ++ args ++ lit ") {") = false /\
  str_in try_open
    (async_function_file pre name args (usage_body stmts w l rest)) = false /\
  str_in legacy_import
    (name ++ lit "(" ++ args ++ lit ") {" ++ [NL] ++ usage_body stmts w l rest) = false /\
  whole_lines stmts /\
  w <> [] /\ forallb is_space w = true /\
  forallb not_newline l = true.

(** The same file after the migration in mode [auth_type]: the import
    replaced in the header and the mode's statement right after the
    function's opening line. *)
Definition fallback_file (auth_type : string) (pre name args body : text) : text :=
  str_replace legacy_import (replacement_import auth_type) pre
  ++ lit "export async function " ++ name ++ lit "(" ++ args ++ lit ") {" ++ [NL]
  ++ func_stmt_of auth_type ++ body.

(** A disk with two of the listed files: a route to migrate and a file that
    was migrated before. *)
Definition two_routes : world :=
  {| files := set_file (set_file (fun _ => Missing) status_route (TextFile route))
                health_route (TextFile migrated_before);
     console := [] |}.

(** A route whose handler is an arrow function. *)
Definition arrow_handler : text :=
  source ["import { supabase } from '@/lib/supabase'";
          "export const GET = async () => {";
          "  try {";
          "    return supabase.from('orders')";
          "  } catch (e) {";
          "    return Response.error()";
          "  }";
          "}"]%string.

(** A route without a try block, in its parts. *)
Definition plain_pre : text := legacy_import ++ [NL].
Definition plain_name : text := lit "GET".
Definition plain_args : text := lit "request: Request".
Definition plain_indent : text := lit "  ".
Definition plain_line : text := lit "return ".
Definition plain_rest : text := lit "from('orders')" ++ [NL] ++ lit "}" ++ [NL].

(** * Properties *)

(** ** Prefixes and occurrences *)

Lemma starts_with_app (p s : text) : starts_with p (p ++ s) = true.
Proof.
  induction p as [|a p IH]; simpl; [reflexivity|].
  now rewrite N.eqb_refl, IH.
Qed.

Lemma starts_with_inv (p s : text) :
  starts_with p s = true -> exists r, s = p ++ r.
Proof.
  revert s; induction p as [|a p IH]; intros s H.
  - now exists s.
  - destruct s as [|b s]; simpl in H; [discriminate|].
    apply andb_true_iff in H as [Hab H].
    apply N.eqb_eq in Hab; subst b.
    destruct (IH _ H) as [r ->]. now exists r.
Qed.

Lemma starts_with_weaken (p s t : text) :
  starts_with p s = true -> starts_with p (s ++ t) = true.
Proof.
  intros H. destruct (starts_with_inv _ _ H) as [r ->].
  rewrite <- app_assoc. apply starts_with_app.
Qed.

(** A prefix of [x ++ y] lies inside [x] or runs over its end into [y]. *)
Lemma starts_with_app_inv (n x y : text) :
  starts_with n (x ++ y) = true ->
  starts_with n x = true \/
  exists n2, n = x ++ n2 /\ n2 <> [] /\ starts_with n2 y = true.
Proof.
  revert n; induction x as [|c x IH]; intros n H.
  - destruct n as [|a n]; [now left|].
    right. exists (a :: n). now repeat split.
  - destruct n as [|a n]; [now left|].
    simpl in H. apply andb_true_iff in H as [Hac H].
    destruct (IH _ H) as [Hx | (n2 & -> & Hn2 & Hy)].
    + left. simpl. now rewrite Hac, Hx.
    + right. exists n2. apply N.eqb_eq in Hac; subst. now repeat split.
Qed.

Lemma starts_with_length (p s : text) :
  starts_with p s = true -> length p <= length s.
Proof.
  intros H. destruct (starts_with_inv _ _ H) as [r ->].
  rewrite length_app. lia.
Qed.

Lemma text_eqb_eq (a b : text) : text_eqb a b = true <-> a = b.
Proof.
  revert b; induction a as [|x a IH]; intros [|y b]; simpl; split; try easy.
  - intros H. apply andb_true_iff in H as [Hxy H].
    apply N.eqb_eq in Hxy. apply IH in H. now subst.
  - intros [= -> ->]. rewrite N.eqb_refl. now apply IH.
Qed.

Lemma str_in_occ (n s : text) : str_in n s = negb (occ n s =? 0).
Proof.
  induction s as [|c s IH]; simpl.
  - now destruct (starts_with n []).
  - rewrite IH. now destruct (starts_with n (c :: s)); simpl.
Qed.

Lemma str_in_false_occ (n s : text) : str_in n s = false <-> occ n s = 0.
Proof.
  rewrite str_in_occ, negb_false_iff. apply Nat.eqb_eq.
Qed.

Lemma str_in_true_occ (n s : text) : str_in n s = true <-> 0 < occ n s.
Proof.
  rewrite str_in_occ, negb_true_iff, Nat.eqb_neq. lia.
Qed.

Lemma str_in_head (n s : text) : starts_with n s = true -> str_in n s = true.
Proof.
  destruct s; simpl; now intros ->.
Qed.

Lemma str_in_intro (n a b : text) : str_in n (a ++ n ++ b) = true.
Proof.
  induction a as [|c a IH]; simpl.
  - apply str_in_head, starts_with_app.
  - rewrite IH. apply orb_true_r.
Qed.

Lemma str_in_inv (n s : text) :
  str_in n s = true -> exists a b, s = a ++ n ++ b.
Proof.
  induction s as [|c s IH]; simpl; intros H.
  - rewrite orb_false_r in H. destruct (starts_with_inv _ _ H) as [r ->].
    now exists [], r.
  - apply orb_true_iff in H as [H|H].
    + destruct (starts_with_inv _ _ H) as [r ->]. now exists [], r.
    + destruct (IH H) as (a & b & ->). now exists (c :: a), b.
Qed.

(** ** Occurrences across a concatenation *)

Lemma agree_tail (n : text) (c : char) (a t : text) :
  agree n (c :: a) t -> agree n a t.
Proof.
  intros H x a' -> Ha'. now apply (H (c :: x) a').
Qed.

Lemma agree_head (n : text) (c : char) (a t : text) :
  agree n (c :: a) t -> starts_with n (c :: a ++ t) = starts_with n (c :: a).
Proof.
  intros H. now apply (H [] (c :: a)).
Qed.

Lemma occ_app_agree (n a t : text) :
  n <> [] -> agree n a t -> occ n (a ++ t) = occ n a + occ n t.
Proof.
  intros Hn. induction a as [|c a IH]; intros H.
  - destruct n; [easy|]. reflexivity.
  - change (occ n ((c :: a) ++ t))
      with ((if starts_with n (c :: a ++ t) then 1 else 0) + occ n (a ++ t)).
    rewrite (agree_head _ _ _ _ H), (IH (agree_tail _ _ _ _ H)).
    change (occ n (c :: a)) with ((if starts_with n (c :: a) then 1 else 0) + occ n a).
    lia.
Qed.

Lemma occ_cons_zero (n : text) (c : char) (a : text) :
  occ n (c :: a) = 0 -> starts_with n (c :: a) = false /\ occ n a = 0.
Proof.
  change (occ n (c :: a)) with ((if starts_with n (c :: a) then 1 else 0) + occ n a).
  destruct (starts_with n (c :: a)); split; auto; lia.
Qed.

Lemma find_app_agree (n a t : text) :
  n <> [] -> agree n a t -> occ n a = 0 ->
  str_find n (a ++ t) = option_map (Nat.add (length a)) (str_find n t).
Proof.
  intros Hn. induction a as [|c a IH]; intros H Hz.
  - simpl. now destruct (str_find n t).
  - apply occ_cons_zero in Hz as [Hc Hz].
    change (str_find n ((c :: a) ++ t))
      with (if starts_with n (c :: a ++ t) then Some 0
            else option_map S (str_find n (a ++ t))).
    rewrite (agree_head _ _ _ _ H), Hc, (IH (agree_tail _ _ _ _ H) Hz).
    now destruct (str_find n t).
Qed.

Lemma straddle_free_spec (n m : text) :
  straddle_free n m = true ->
  n <> [] /\
  forall k, 1 <= k < length n ->
    ends_with (firstn k n) m = false /\
    starts_with (skipn k n) m = false /\
    starts_with m (skipn k n) = false.
Proof.
  unfold straddle_free. destruct n as [|c n]; [discriminate|].
  intros H. split; [discriminate|]. intros k Hk.
  rewrite forallb_forall in H.
  specialize (H k). rewrite in_seq in H.
  assert (Hin : 1 <= k < 1 + (length (c :: n) - 1)) by (simpl in *; lia).
  apply H in Hin.
  apply andb_true_iff in Hin as [Hin H3].
  apply andb_true_iff in Hin as [H1 H2].
  now rewrite negb_true_iff in H1, H2, H3.
Qed.

(** Nothing straddles the border between [a] and a block [m]. *)
Lemma agree_before (n a m b : text) :
  (forall k, 1 <= k < length n ->
     starts_with (skipn k n) m = false /\ starts_with m (skipn k n) = false) ->
  agree n a (m ++ b).
Proof.
  intros H x a' -> Ha'.
  destruct (starts_with n (a' ++ m ++ b)) eqn:E.
  - apply starts_with_app_inv in E as [E | (n2 & -> & Hn2 & E)]; [now rewrite E|].
    exfalso.
    destruct (H (length a')) as [H1 H2].
    { rewrite length_app. destruct a', n2; simpl in *; try easy; lia. }
    rewrite skipn_app, Nat.sub_diag, skipn_all in H1, H2. simpl in H1, H2.
    apply starts_with_app_inv in E as [E | (n3 & -> & _ & _)]; [congruence|].
    now rewrite starts_with_app in H2.
  - destruct (starts_with n a') eqn:E'; [|reflexivity].
    apply starts_with_weaken with (t := m ++ b) in E'. congruence.
Qed.

(** Nothing straddles the border between a block [m] and [b]. *)
Lemma agree_after (n m b : text) :
  (forall k, 1 <= k < length n -> ends_with (firstn k n) m = false) ->
  agree n m b.
Proof.
  intros H x m' -> Hm'.
  destruct (starts_with n (m' ++ b)) eqn:E.
  - apply starts_with_app_inv in E as [E | (n2 & -> & Hn2 & E)]; [now rewrite E|].
    exfalso.
    specialize (H (length m')).
    rewrite firstn_app, Nat.sub_diag, firstn_all in H. simpl in H.
    rewrite app_nil_r in H. unfold ends_with in H.
    rewrite rev_app_distr, starts_with_app in H.
    assert (true = false); [|discriminate].
    apply H. rewrite length_app. destruct m', n2; simpl in *; try easy; lia.
  - destruct (starts_with n m') eqn:E'; [|reflexivity].
    apply starts_with_weaken with (t := b) in E'. congruence.
Qed.

Lemma straddle_free_before (n a m b : text) :
  straddle_free n m = true -> agree n a (m ++ b).
Proof.
  intros H. apply straddle_free_spec in H as [_ H].
  apply agree_before. intros k Hk. now destruct (H k Hk) as (_ & ? & ?).
Qed.

Lemma straddle_free_after (n m b : text) :
  straddle_free n m = true -> agree n m b.
Proof.
  intros H. apply straddle_free_spec in H as [_ H].
  apply agree_after. intros k Hk. now destruct (H k Hk) as (? & _).
Qed.

Lemma straddle_free_nonempty (n m : text) : straddle_free n m = true -> n <> [].
Proof.
  intros H. now apply straddle_free_spec in H.
Qed.

(** The occurrences of [n] in [a ++ m ++ b] are those in [a], in [m] and in
    [b]: a block between two texts that no occurrence can straddle. *)
Lemma occ_sandwich (n m a b : text) :
  straddle_free n m = true ->
  occ n (a ++ m ++ b) = occ n a + occ n m + occ n b.
Proof.
  intros H.
  pose proof (straddle_free_nonempty _ _ H) as Hn.
  rewrite (occ_app_agree n a (m ++ b) Hn (straddle_free_before n a m b H)).
  rewrite (occ_app_agree n m b Hn (straddle_free_after n m b H)).
  lia.
Qed.

Lemma occ_short (n s : text) : length s < length n -> occ n s = 0.
Proof.
  induction s as [|c s IH]; intros H.
  - destruct n; simpl in *; [lia|reflexivity].
  - change (occ n (c :: s)) with ((if starts_with n (c :: s) then 1 else 0) + occ n s).
    rewrite IH by (simpl in H; lia).
    destruct (starts_with n (c :: s)) eqn:E; [|reflexivity].
    apply starts_with_length in E. lia.
Qed.

Lemma occ_self (n : text) : n <> [] -> occ n n = 1.
Proof.
  destruct n as [|c n]; [easy|]. intros _.
  change (occ (c :: n) (c :: n))
    with ((if starts_with (c :: n) (c :: n) then 1 else 0) + occ (c :: n) n).
  rewrite <- (app_nil_r (c :: n)) at 2. rewrite starts_with_app.
  rewrite occ_short by (simpl; lia). reflexivity.
Qed.

(** ** [str.find] and [str.replace] *)

Lemma find_none_occ (n s : text) : str_find n s = None <-> occ n s = 0.
Proof.
  induction s as [|c s IH].
  - simpl. destruct (starts_with n []); split; intros; try easy; lia.
  - change (str_find n (c :: s))
      with (if starts_with n (c :: s) then Some 0 else option_map S (str_find n s)).
    change (occ n (c :: s)) with ((if starts_with n (c :: s) then 1 else 0) + occ n s).
    destruct (starts_with n (c :: s)).
    + split; intros; [discriminate|lia].
    + destruct (str_find n s); simpl; split; intros H; try easy.
      * exfalso. assert (occ n s = 0) as H0 by lia. now apply IH in H0.
      * apply IH. reflexivity.
Qed.

(** [str.find] returns the first occurrence. *)
Lemma find_some (n s : text) (i : nat) :
  n <> [] -> str_find n s = Some i ->
  s = firstn i s ++ n ++ skipn (i + length n) s /\ occ n (firstn i s) = 0.
Proof.
  intros Hn. revert i; induction s as [|c s IH]; intros i.
  - simpl. destruct n; [easy|discriminate].
  - change (str_find n (c :: s))
      with (if starts_with n (c :: s) then Some 0 else option_map S (str_find n s)).
    destruct (starts_with n (c :: s)) eqn:E.
    + intros [= <-]. destruct (starts_with_inv _ _ E) as [r Hr].
      split.
      * rewrite Hr at 1. simpl. f_equal.
        rewrite Hr, skipn_app, Nat.sub_diag, skipn_all. reflexivity.
      * destruct n; [easy|reflexivity].
    + destruct (str_find n s) as [j|] eqn:F; [|discriminate].
      intros [= <-]. destruct (IH j eq_refl) as [Hs Hz].
      split.
      * simpl. f_equal. exact Hs.
      * change (firstn (S j) (c :: s)) with (c :: firstn j s).
        change (occ n (c :: firstn j s))
          with ((if starts_with n (c :: firstn j s) then 1 else 0) + occ n (firstn j s)).
        rewrite Hz. destruct (starts_with n (c :: firstn j s)) eqn:E'; [|reflexivity].
        apply starts_with_weaken with (t := skipn j s) in E'.
        change ((c :: firstn j s) ++ skipn j s) with (c :: (firstn j s ++ skipn j s)) in E'.
        rewrite firstn_skipn in E'. congruence.
Qed.

Lemma nonempty_length (n : text) : n <> [] -> 0 < length n.
Proof.
  destruct n; simpl; [easy|lia].
Qed.

Section Replace.

Variables old new : text.

(** [old] does not overlap itself, so its occurrences are disjoint and
    [str.replace] rewrites every one of them. *)
Hypothesis old_free : straddle_free old old = true.

Let old_nonempty : old <> [] := straddle_free_nonempty old old old_free.
Let old_length : 0 < length old := nonempty_length old old_nonempty.

Lemma replace_fuel_enough (f1 f2 : nat) (s : text) :
  length s <= f1 -> length s <= f2 ->
  replace_fuel f1 old new s = replace_fuel f2 old new s.
Proof.
  revert f2 s; induction f1 as [|f1 IH]; intros f2 s H1 H2.
  - destruct s; [|simpl in H1; lia].
    destruct f2; simpl; [reflexivity|].
    pose proof old_nonempty. destruct old; [easy|reflexivity].
  - destruct f2 as [|f2].
    + destruct s; [|simpl in H2; lia]. simpl.
      pose proof old_nonempty. destruct old; [easy|reflexivity].
    + simpl. destruct (str_find old s) as [i|] eqn:F; [|reflexivity].
      do 2 f_equal. pose proof old_length.
      apply IH; rewrite length_skipn; lia.
Qed.

(** The recursion [str.replace] performs. *)
Lemma replace_eq (s : text) :
  str_replace old new s =
  match str_find old s with
  | None => s
  | Some i => firstn i s ++ new ++ str_replace old new (skipn (i + length old) s)
  end.
Proof.
  unfold str_replace. destruct s as [|c s].
  - simpl. pose proof old_nonempty. destruct old; [easy|reflexivity].
  - change (length (c :: s)) with (S (length s)).
    cbn [replace_fuel]. destruct (str_find old (c :: s)) as [i|] eqn:F; [|reflexivity].
    do 2 f_equal. pose proof old_length.
    apply replace_fuel_enough; rewrite length_skipn; simpl length; lia.
Qed.

Lemma replace_id (s : text) : occ old s = 0 -> str_replace old new s = s.
Proof.
  intros H. rewrite replace_eq. apply find_none_occ in H. now rewrite H.
Qed.

Lemma replace_app_agree (a t : text) :
  agree old a t -> occ old a = 0 ->
  str_replace old new (a ++ t) = a ++ str_replace old new t.
Proof.
  intros H Hz. rewrite (replace_eq (a ++ t)), (replace_eq t).
  rewrite (find_app_agree old a t old_nonempty H Hz).
  destruct (str_find old t) as [j|]; simpl; [|reflexivity].
  rewrite firstn_app, firstn_all2 by lia.
  replace (length a + j - length a) with j by lia.
  rewrite skipn_app, skipn_all2 by lia.
  replace (length a + j + length old - length a) with (j + length old) by lia.
  simpl. now rewrite <- app_assoc.
Qed.

(** One step of the replacement: up to the first occurrence. *)
Lemma replace_hit (u t : text) :
  occ old u = 0 ->
  str_replace old new (u ++ old ++ t) = u ++ new ++ str_replace old new t.
Proof.
  intros Hz.
  rewrite replace_app_agree by (auto using straddle_free_before).
  rewrite (replace_eq (old ++ t)).
  assert (F : str_find old (old ++ t) = Some 0).
  { assert (G : forall n, str_find n (n ++ t) = Some 0).
    { intros n. destruct (n ++ t) eqn:E; simpl; rewrite <- E, starts_with_app;
        reflexivity. }
    apply G. }
  rewrite F. simpl. rewrite skipn_app, Nat.sub_diag, skipn_all. reflexivity.
Qed.

(** Induction along the replacement: a text without [old] is left alone;
    otherwise the text before the first occurrence is kept, the occurrence
    replaced, and the rest treated in the same way. *)
Lemma replace_ind (P : text -> text -> Prop) :
  (forall s, occ old s = 0 -> P s s) ->
  (forall u r, occ old u = 0 -> P r (str_replace old new r) ->
     P (u ++ old ++ r) (u ++ new ++ str_replace old new r)) ->
  forall s, P s (str_replace old new s).
Proof.
  intros Hbase Hstep s.
  remember (length s) as k eqn:Hk. revert s Hk.
  induction k as [k IH] using lt_wf_ind. intros s ->.
  rewrite replace_eq. destruct (str_find old s) as [i|] eqn:F.
  - destruct (find_some old s i old_nonempty F) as [Hs Hz].
    remember (firstn i s) as u eqn:Hu.
    remember (skipn (i + length old) s) as r eqn:Hr.
    assert (Hlen : length r < length s).
    { rewrite Hs. rewrite !length_app. pose proof old_length. lia. }
    clear Hu Hr F. rewrite Hs at 1.
    apply Hstep; [exact Hz|]. now apply (IH (length r)).
  - apply Hbase. now apply find_none_occ.
Qed.

(** How many occurrences of a literal [n] the replacement leaves, when [n]
    cannot straddle an occurrence of [old] or of [new]. *)
Lemma occ_replace (n s : text) :
  straddle_free n old = true -> straddle_free n new = true ->
  occ n (str_replace old new s) + occ old s * occ n old =
  occ n s + occ old s * occ n new.
Proof.
  intros Ho Hn. apply (replace_ind (fun s s' =>
    occ n s' + occ old s * occ n old = occ n s + occ old s * occ n new)).
  - intros s0 ->. lia.
  - intros u r Hz IH.
    rewrite (occ_sandwich n new), (occ_sandwich n old), (occ_sandwich old old) by assumption.
    rewrite Hz, (occ_self old old_nonempty). nia.
Qed.

(** A block that [old] cannot straddle splits the replacement. *)
Lemma replace_sandwich (m a b : text) :
  straddle_free old m = true -> occ old m = 0 ->
  str_replace old new (a ++ m ++ b) =
  str_replace old new a ++ m ++ str_replace old new b.
Proof.
  intros Hm Hz. apply (replace_ind (fun a a' =>
    str_replace old new (a ++ m ++ b) = a' ++ m ++ str_replace old new b)).
  - intros s Hs.
    rewrite replace_app_agree by (auto using straddle_free_before).
    rewrite replace_app_agree by (auto using straddle_free_after).
    reflexivity.
  - intros u r Hu IH. cbv beta in *.
    rewrite <- !app_assoc. rewrite replace_hit by exact Hu.
    now rewrite IH.
Qed.

End Replace.

Lemma firstn_exact (a b : text) : firstn (length a) (a ++ b) = a.
Proof.
  induction a; simpl; congruence.
Qed.

Lemma skipn_exact (a b : text) : skipn (length a) (a ++ b) = b.
Proof.
  induction a; simpl; congruence.
Qed.

(** ** The matcher *)

Lemma strip_some (l s s' : text) : strip l s = Some s' <-> s = l ++ s'.
Proof.
  revert s; induction l as [|a l IH]; intros s; simpl.
  - split; [now intros [= ->] | now intros ->].
  - destruct s as [|b s]; [easy|].
    destruct (N.eqb_spec a b) as [->|Hab].
    + rewrite IH. split; [now intros -> | now intros [= ->]].
    + split; [easy | intros [= -> _]; easy].
Qed.

Lemma strip_app (l s : text) : strip l (l ++ s) = Some s.
Proof.
  now apply strip_some.
Qed.

Section Matcher.

Variable k : text -> option text.

Lemma greedy_star_sound (c : char -> bool) (s r : text) :
  greedy_star c k s = Some r ->
  exists m s', s = m ++ s' /\ forallb c m = true /\ k s' = Some r.
Proof.
  induction s as [|x s IH]; simpl; intros H.
  - now exists [], [].
  - destruct (c x) eqn:Hx; [|now exists [], (x :: s)].
    destruct (greedy_star c k s) as [r'|] eqn:G; simpl in H.
    + injection H as ->. destruct (IH eq_refl) as (m & s' & -> & Hm & Hk).
      exists (x :: m), s'. simpl. now rewrite Hx, Hm.
    + now exists [], (x :: s).
Qed.

Lemma greedy_star_complete (c : char -> bool) (m s' : text) :
  forallb c m = true -> k s' <> None -> greedy_star c k (m ++ s') <> None.
Proof.
  intros Hm Hk. induction m as [|x m IH]; simpl.
  - destruct s' as [|y s']; simpl; [exact Hk|].
    destruct (c y); [|exact Hk].
    destruct (greedy_star c k s'); simpl; [easy|exact Hk].
  - simpl in Hm. apply andb_true_iff in Hm as [Hx Hm]. rewrite Hx.
    destruct (greedy_star c k (m ++ s')) eqn:G; simpl; [easy|].
    now apply IH in Hm.
Qed.

Lemma lazy_star_sound (c : char -> bool) (s r : text) :
  lazy_star c k s = Some r ->
  exists m s', s = m ++ s' /\ forallb c m = true /\ k s' = Some r.
Proof.
  induction s as [|x s IH]; simpl; intros H.
  - destruct (k []) eqn:K; [|discriminate]. injection H as ->. now exists [], [].
  - destruct (k (x :: s)) eqn:K; [injection H as ->; now exists [], (x :: s)|].
    destruct (c x) eqn:Hx; [|discriminate].
    destruct (IH H) as (m & s' & -> & Hm & Hk).
    exists (x :: m), s'. simpl. now rewrite Hx, Hm.
Qed.

Lemma lazy_star_complete (c : char -> bool) (m s' : text) :
  forallb c m = true -> k s' <> None -> lazy_star c k (m ++ s') <> None.
Proof.
  intros Hm Hk. induction m as [|x m IH]; simpl.
  - destruct s' as [|y s']; simpl; destruct (k _); easy.
  - simpl in Hm. apply andb_true_iff in Hm as [Hx Hm]. rewrite Hx.
    destruct (k (x :: m ++ s')); [easy|]. now apply IH.
Qed.

Lemma match_atom_sound (a : atom) (s r : text) :
  match_atom a k s = Some r ->
  exists m s', s = m ++ s' /\ atom_lang a m /\ k s' = Some r.
Proof.
  destruct a as [l|c|c|c|l]; simpl; intros H.
  - destruct (strip l s) as [s'|] eqn:E; [|discriminate].
    apply strip_some in E. now exists l, s'.
  - destruct s as [|x s]; [discriminate|].
    destruct (c x) eqn:Hx; [|discriminate].
    destruct (greedy_star_sound c s r H) as (m & s' & -> & Hm & Hk).
    exists (x :: m), s'. simpl. rewrite Hx, Hm. now repeat split.
  - now apply greedy_star_sound.
  - now apply lazy_star_sound.
  - destruct (strip l s) as [s'|] eqn:E.
    + apply strip_some in E. destruct (k s') eqn:K; simpl in H.
      * injection H as ->. exists l, s'. auto.
      * exists [], s. auto.
    + exists [], s. auto.
Qed.

Lemma match_atom_complete (a : atom) (m s' : text) :
  atom_lang a m -> k s' <> None -> match_atom a k (m ++ s') <> None.
Proof.
  destruct a as [l|c|c|c|l]; simpl; intros H Hk.
  - subst m. now rewrite strip_app.
  - destruct H as [Hne Hm]. destruct m as [|x m]; [easy|].
    simpl in *. apply andb_true_iff in Hm as [-> Hm].
    now apply greedy_star_complete.
  - now apply greedy_star_complete.
  - now apply lazy_star_complete.
  - destruct H as [-> | ->].
    + rewrite strip_app. destruct (k s'); simpl; easy.
    + simpl. destruct (strip l s') as [s''|]; [|exact Hk].
      destruct (k s''); simpl; easy.
Qed.

End Matcher.

Lemma match_seq_sound (p : regex) (k : text -> option text) (s r : text) :
  match_seq p k s = Some r ->
  exists m s', s = m ++ s' /\ regex_lang p m /\ k s' = Some r.
Proof.
  revert s; induction p as [|a p IH]; simpl; intros s H.
  - now exists [], s.
  - apply match_atom_sound in H as (m1 & s1 & -> & H1 & H).
    apply IH in H as (m2 & s2 & -> & H2 & H).
    exists (m1 ++ m2), s2. rewrite <- app_assoc. repeat split; auto.
    now exists m1, m2.
Qed.

Lemma match_seq_complete (p : regex) (k : text -> option text) (m s' : text) :
  regex_lang p m -> k s' <> None -> match_seq p k (m ++ s') <> None.
Proof.
  revert m; induction p as [|a p IH]; simpl; intros m H Hk.
  - now subst m.
  - destruct H as (m1 & m2 & -> & H1 & H2). rewrite <- app_assoc.
    apply match_atom_complete; auto.
Qed.

(** A match consumes a text of the pattern's language ... *)
Lemma match_here_sound (p : regex) (s r : text) :
  match_here p s = Some r -> exists m, s = m ++ r /\ regex_lang p m.
Proof.
  intros H. apply match_seq_sound in H as (m & s' & -> & Hm & [= ->]).
  now exists m.
Qed.

(** ... and the matcher finds a match wherever the language has one. *)
Lemma match_here_complete (p : regex) (m r : text) :
  regex_lang p m -> match_here p (m ++ r) <> None.
Proof.
  intros H. now apply match_seq_complete.
Qed.

(** ** [re.search] and [re.sub] *)

(** What [re.search] returns is a match, at its position. *)
Lemma search_from_sound (p : regex) (s : text) (pos : nat) (mt : re_match) :
  search_from p pos s = Some mt ->
  exists a m r,
    s = a ++ m ++ r /\ regex_lang p m /\
    m_start mt = pos + length a /\ m_end mt = pos + length a + length m.
Proof.
  assert (Here : forall s r, match_here p s = Some r ->
            exists m, s = [] ++ m ++ r /\ regex_lang p m /\
                      pos + (length s - length r) = pos + length (@nil char) + length m).
  { intros s0 r E. apply match_here_sound in E as (m & -> & Hm).
    exists m. repeat split; auto. rewrite length_app. simpl. lia. }
  revert pos mt Here; induction s as [|c s IH]; intros pos mt Here; cbn [search_from].
  - destruct (match_here p []) as [r|] eqn:E; [|discriminate].
    intros [= <-]. apply Here in E as (m & Hs & Hm & He).
    exists [], m, r. cbn [m_start m_end]. repeat split; auto.
  - destruct (match_here p (c :: s)) as [r|] eqn:E.
    + intros [= <-]. apply Here in E as (m & Hs & Hm & He).
      exists [], m, r. cbn [m_start m_end]. repeat split; auto.
    + intros H. apply IH in H as (a & m & r & -> & Hm & H1 & H2).
      * exists (c :: a), m, r. simpl. repeat split; auto; lia.
      * intros s0 r E0. apply match_here_sound in E0 as (m & -> & Hm).
        exists m. repeat split; auto. rewrite length_app. simpl. lia.
Qed.

(** [re.search] finds a match no later than any position that has one. *)
Lemma search_from_complete (p : regex) (a t : text) (pos : nat) :
  match_here p t <> None ->
  exists mt, search_from p pos (a ++ t) = Some mt /\ m_start mt <= pos + length a.
Proof.
  intros Ht. revert pos; induction a as [|c a IH]; intros pos.
  - destruct (match_here p t) as [r|] eqn:E; [|easy].
    destruct t as [|x t]; cbn [app search_from]; rewrite E;
      (eexists; split; [reflexivity|cbn [m_start length]; lia]).
  - cbn [app search_from]. destruct (match_here p (c :: a ++ t)) as [r|] eqn:E.
    + eexists; split; [reflexivity|cbn [m_start length]; lia].
    + destruct (IH (S pos)) as (mt & H & Hle). exists mt.
      split; [exact H|cbn [length]; lia].
Qed.

Lemma re_sub1_none (p : regex) (tail s : text) :
  re_search p s = None -> re_sub1 p tail s = s.
Proof.
  unfold re_sub1. now intros ->.
Qed.

(** The substitution inserts [tail] right after the leftmost match. *)
Lemma re_sub1_some (p : regex) (tail s : text) (mt : re_match) :
  re_search p s = Some mt ->
  exists a m r,
    s = a ++ m ++ r /\ regex_lang p m /\ m_start mt = length a /\
    re_sub1 p tail s = a ++ m ++ tail ++ r.
Proof.
  intros H. unfold re_sub1. rewrite H.
  apply search_from_sound in H as (a & m & r & -> & Hm & H1 & H2).
  exists a, m, r. repeat split; auto.
  simpl in H1, H2. rewrite H1, H2. unfold slice.
  replace (length a + length m - length a) with (length m) by lia.
  rewrite firstn_exact, skipn_exact, firstn_exact.
  rewrite (app_assoc a m r), <- length_app, skipn_exact.
  now rewrite <- !app_assoc.
Qed.

(** ** Insertions leave the imports alone *)

Lemma occ_insert (n tail x y : text) :
  inert n tail = true ->
  occ n (x ++ [NL] ++ tail ++ y) = occ n (x ++ [NL] ++ y).
Proof.
  unfold inert. intros H.
  apply andb_true_iff in H as [H H4]. apply andb_true_iff in H as [H H3].
  apply andb_true_iff in H as [H1 H2].
  apply Nat.eqb_eq in H3, H4.
  change (x ++ [NL] ++ tail ++ y) with (x ++ ([NL] ++ tail) ++ y).
  rewrite (occ_sandwich n ([NL] ++ tail)), (occ_sandwich n [NL]) by assumption.
  lia.
Qed.

Lemma occ_re_sub1 (p : regex) (n tail s : text) :
  ends_nl p -> inert n tail = true -> occ n (re_sub1 p tail s) = occ n s.
Proof.
  intros Hp Hn. destruct (re_search p s) as [mt|] eqn:E.
  - destruct (re_sub1_some p tail s mt E) as (a & m & r & -> & Hm & _ & ->).
    destruct (Hp m Hm) as [m0 ->].
    rewrite <- !app_assoc, !(app_assoc a m0).
    now apply occ_insert.
  - now rewrite re_sub1_none.
Qed.

Lemma try_pattern_lang (m : text) :
  regex_lang try_pattern m <->
  exists ws, m = [NL] ++ ws ++ lit "try {" ++ [NL] /\ ws <> [] /\ forallb is_space ws = true.
Proof.
  unfold try_pattern. cbn [regex_lang atom_lang]. split.
  - intros (m1 & r1 & -> & -> & ws & r2 & -> & (Hne & Hws) & m3 & r3 & -> & -> & ->).
    exists ws. rewrite app_nil_r. auto.
  - intros (ws & -> & Hne & Hws).
    exists [NL], (ws ++ lit "try {" ++ [NL]). repeat split.
    exists ws, (lit "try {" ++ [NL]). repeat split; auto.
    exists (lit "try {" ++ [NL]), []. now rewrite app_nil_r.
Qed.

Lemma try_pattern_ends_nl : ends_nl try_pattern.
Proof.
  intros m Hm. apply try_pattern_lang in Hm as (ws & -> & _).
  exists ([NL] ++ ws ++ lit "try {"). now rewrite <- !app_assoc.
Qed.

Section Facts.

Variable uni_alnum : char -> bool.

Lemma func_pattern_lang (m : text) :
  regex_lang (func_pattern uni_alnum) m ->
  exists name args,
    m = lit "export async function " ++ name ++ lit "(" ++ args ++ lit ") {" ++ [NL].
Proof.
  unfold func_pattern. cbn [regex_lang atom_lang].
  intros (m1 & r1 & -> & -> & name & r2 & -> & _ & m3 & r3 & -> & -> &
          args & r4 & -> & _ & m5 & r5 & -> & -> & ->).
  exists name, args. now rewrite app_nil_r.
Qed.

Lemma func_pattern_lang_full (m : text) :
  regex_lang (func_pattern uni_alnum) m <->
  exists name args,
    m = lit "export async function " ++ name ++ lit "(" ++ args ++ lit ") {" ++ [NL] /\
    name <> [] /\ forallb (is_word uni_alnum) name = true /\
    forallb not_rparen args = true.
Proof.
  unfold func_pattern. cbn [regex_lang atom_lang]. split.
  - intros (m1 & r1 & -> & -> & name & r2 & -> & (Hne & Hname) & m3 & r3 & -> & -> &
            args & r4 & -> & Hargs & m5 & r5 & -> & -> & ->).
    exists name, args. rewrite app_nil_r. auto.
  - intros (name & args & -> & Hne & Hname & Hargs).
    exists (lit "export async function "), (name ++ lit "(" ++ args ++ lit ") {" ++ [NL]).
    repeat split.
    exists name, (lit "(" ++ args ++ lit ") {" ++ [NL]). repeat split; auto.
    exists (lit "("), (args ++ lit ") {" ++ [NL]). repeat split.
    exists args, (lit ") {" ++ [NL]). repeat split; auto.
    exists (lit ") {" ++ [NL]), []. now rewrite app_nil_r.
Qed.

Lemma func_pattern_ends_nl : ends_nl (func_pattern uni_alnum).
Proof.
  intros m Hm. apply func_pattern_lang in Hm as (name & args & ->).
  exists (lit "export async function " ++ name ++ lit "(" ++ args ++ lit ") {").
  now rewrite <- !app_assoc.
Qed.

Lemma occ_insert_client (n ts fs content : text) :
  inert n ts = true -> inert n fs = true ->
  occ n (insert_client uni_alnum ts fs content) = occ n content.
Proof.
  intros Ht Hf. unfold insert_client. destruct (str_in try_open content).
  - apply occ_re_sub1; auto using try_pattern_ends_nl.
  - apply occ_re_sub1; auto using func_pattern_ends_nl.
Qed.

Lemma occ_scan_back (n ts fs content : text) (visited : list text) :
  inert n ts = true -> inert n fs = true ->
  occ n (scan_back uni_alnum visited ts fs content) = occ n content.
Proof.
  intros Ht Hf. induction visited as [|line earlier IH]; simpl; [reflexivity|].
  destruct (_ || _); [now apply occ_insert_client | exact IH].
Qed.

(** After the import has been replaced, the rest of a branch does not touch
    the occurrences of a literal that is inert for both statements. *)
Lemma occ_migrate (n new_import ts fs content : text) :
  inert n ts = true -> inert n fs = true ->
  occ n (migrate uni_alnum new_import ts fs content) =
  occ n (str_replace legacy_import new_import content).
Proof.
  intros Ht Hf. unfold migrate.
  destruct (re_search first_usage_pattern _); [|reflexivity].
  now apply occ_scan_back.
Qed.

Lemma legacy_free : straddle_free legacy_import legacy_import = true.
Proof.
  vm_compute. reflexivity.
Qed.

Lemma rewrite_mode (auth_type : string) (content : text) :
  is_mode auth_type ->
  rewrite uni_alnum auth_type content =
  migrate uni_alnum (replacement_import auth_type) (try_stmt_of auth_type)
    (func_stmt_of auth_type) content.
Proof.
  intros [-> | ->]; reflexivity.
Qed.

(** The legacy import is gone from what a mode's branch produces. *)
Lemma occ_legacy_rewrite (auth_type : string) (content : text) :
  is_mode auth_type ->
  occ legacy_import (rewrite uni_alnum auth_type content) = 0.
Proof.
  intros Hm. rewrite rewrite_mode by exact Hm.
  rewrite occ_migrate by (destruct Hm as [-> | ->]; vm_compute; reflexivity).
  pose proof (occ_replace legacy_import (replacement_import auth_type) legacy_free
                legacy_import content legacy_free) as H.
  assert (Hn : straddle_free legacy_import (replacement_import auth_type) = true
               /\ occ legacy_import (replacement_import auth_type) = 0)
    by (destruct Hm as [-> | ->]; split; vm_compute; reflexivity).
  destruct Hn as [Hs Hz]. specialize (H Hs).
  rewrite Hz, (occ_self legacy_import) in H by easy. lia.
Qed.

(** The replacement import occurs once for every legacy import replaced, on
    top of the occurrences the file already had. *)
Lemma occ_replacement_rewrite (auth_type : string) (content : text) :
  is_mode auth_type ->
  occ (replacement_import auth_type) (rewrite uni_alnum auth_type content) =
  occ legacy_import content + occ (replacement_import auth_type) content.
Proof.
  intros Hm. rewrite rewrite_mode by exact Hm.
  rewrite occ_migrate by (destruct Hm as [-> | ->]; vm_compute; reflexivity).
  assert (Hn : straddle_free (replacement_import auth_type) legacy_import = true
               /\ straddle_free (replacement_import auth_type)
                    (replacement_import auth_type) = true
               /\ occ (replacement_import auth_type) legacy_import = 0
               /\ replacement_import auth_type <> [])
    by (destruct Hm as [-> | ->]; repeat split; try (vm_compute; reflexivity); easy).
  destruct Hn as (H1 & H2 & H3 & H4).
  pose proof (occ_replace legacy_import (replacement_import auth_type) legacy_free
                (replacement_import auth_type) content H1 H2) as H.
  rewrite H3, (occ_self _ H4) in H. lia.
Qed.

(** A branch always changes a file that has the legacy import. *)
Lemma rewrite_changes (auth_type : string) (content : text) :
  is_mode auth_type -> str_in legacy_import content = true ->
  text_eqb (rewrite uni_alnum auth_type content) content = false.
Proof.
  intros Hm Hin. destruct (text_eqb _ _) eqn:E; [|reflexivity].
  apply text_eqb_eq in E. apply str_in_true_occ in Hin.
  pose proof (occ_legacy_rewrite auth_type content Hm) as Hz.
  rewrite E in Hz. lia.
Qed.

(** What [fix_file] does to a readable file that has the legacy import. *)
Lemma fix_file_rewrites (filepath auth_type : string) (content : text) (w : world) :
  files w filepath = TextFile content ->
  str_in legacy_import content = true ->
  is_mode auth_type ->
  fix_file uni_alnum filepath auth_type w =
  (Returned true,
   {| files := set_file (files w) filepath
                 (TextFile (rewrite uni_alnum auth_type content));
      console := console w ++ [Fixed filepath auth_type] |}).
Proof.
  intros Hf Hin Hm. unfold fix_file, bind, path_exists, read_text.
  rewrite Hf. cbn [negb]. rewrite Hf, Hin. cbn [negb].
  rewrite (rewrite_changes auth_type content Hm Hin). cbn [negb].
  unfold write_text, print, ret. now rewrite Hf.
Qed.

End Facts.

(** ** The outcomes of [fix_file] *)

Section Outcomes.

Variable uni_alnum : char -> bool.

Lemma set_file_same (fs : string -> entry) (filepath : string) (e : entry) :
  set_file fs filepath e filepath = e.
Proof.
  unfold set_file. now rewrite String.eqb_refl.
Qed.

Lemma fix_file_missing (filepath auth_type : string) (w : world) :
  files w filepath = Missing ->
  fix_file uni_alnum filepath auth_type w =
  (Returned false,
   {| files := files w; console := console w ++ [FileNotFound filepath] |}).
Proof.
  intros Hf. unfold fix_file, bind, path_exists. now rewrite Hf.
Qed.

Lemma fix_file_clean (filepath auth_type : string) (content : text) (w : world) :
  files w filepath = TextFile content ->
  str_in legacy_import content = false ->
  fix_file uni_alnum filepath auth_type w =
  (Returned true,
   {| files := files w; console := console w ++ [AlreadyFixed filepath] |}).
Proof.
  intros Hf Hin. unfold fix_file, bind, path_exists, read_text.
  rewrite Hf. cbn [negb]. now rewrite Hf, Hin.
Qed.

Lemma fix_file_directory (filepath auth_type : string) (w : world) :
  files w filepath = Directory ->
  fix_file uni_alnum filepath auth_type w = (Raised (IsADirectoryError filepath), w).
Proof.
  intros Hf. unfold fix_file, bind, path_exists, read_text.
  rewrite Hf. cbn [negb]. now rewrite Hf.
Qed.

(** A mode that is neither of the two leaves the text alone. *)
Lemma rewrite_other (auth_type : string) (content : text) :
  ~ is_mode auth_type -> rewrite uni_alnum auth_type content = content.
Proof.
  intros H. unfold rewrite.
  destruct (String.eqb_spec auth_type "user") as [->|_]; [exfalso; apply H; now left|].
  destruct (String.eqb_spec auth_type "service") as [->|_]; [exfalso; apply H; now right|].
  reflexivity.
Qed.

Lemma is_mode_dec (auth_type : string) : is_mode auth_type \/ ~ is_mode auth_type.
Proof.
  unfold is_mode.
  destruct (String.eqb_spec auth_type "user"); [now left; left|].
  destruct (String.eqb_spec auth_type "service"); [now left; right|].
  right. now intros [?|?].
Qed.

Lemma text_eqb_refl (a : text) : text_eqb a a = true.
Proof.
  now apply text_eqb_eq.
Qed.

Lemma fix_file_other (filepath auth_type : string) (content : text) (w : world) :
  files w filepath = TextFile content ->
  str_in legacy_import content = true ->
  ~ is_mode auth_type ->
  fix_file uni_alnum filepath auth_type w =
  (Returned false,
   {| files := files w; console := console w ++ [CouldNotFix filepath] |}).
Proof.
  intros Hf Hin Hm. unfold fix_file, bind, path_exists, read_text.
  rewrite Hf. cbn [negb]. rewrite Hf, Hin. cbn [negb].
  now rewrite (rewrite_other auth_type content Hm), text_eqb_refl.
Qed.

Lemma fix_file_outcome (filepath auth_type : string) (w : world) :
  outcome uni_alnum filepath auth_type w
    (fst (fix_file uni_alnum filepath auth_type w))
    (snd (fix_file uni_alnum filepath auth_type w)).
Proof.
  destruct (files w filepath) as [| |content] eqn:Hf.
  - rewrite fix_file_missing by exact Hf. now constructor.
  - rewrite fix_file_directory by exact Hf. now constructor.
  - destruct (str_in legacy_import content) eqn:Hin.
    + destruct (is_mode_dec auth_type) as [Hm|Hm].
      * rewrite (fix_file_rewrites uni_alnum filepath auth_type content w Hf Hin Hm).
        now apply Rewritten.
      * rewrite (fix_file_other filepath auth_type content w Hf Hin Hm).
        now apply Untouched with content.
    + rewrite (fix_file_clean filepath auth_type content w Hf Hin).
      now apply Clean with content.
Qed.

End Outcomes.

(** ** The import replacement and other literals *)

Lemma occ_replace_neutral (auth_type : string) (n s : text) :
  is_mode auth_type -> neutral n = true ->
  occ n (str_replace legacy_import (replacement_import auth_type) s) = occ n s.
Proof.
  unfold neutral. intros Hm H.
  apply andb_true_iff in H as [H Hs6]. apply andb_true_iff in H as [H Hs5].
  apply andb_true_iff in H as [H Hs4]. apply andb_true_iff in H as [H Hs3].
  apply andb_true_iff in H as [Hs1 Hs2].
  apply Nat.eqb_eq in Hs2, Hs4, Hs6.
  assert (Hn : straddle_free n (replacement_import auth_type) = true
               /\ occ n (replacement_import auth_type) = 0).
  { destruct Hm as [-> | ->].
    - split; [exact Hs3 | exact Hs4].
    - split; [exact Hs5 | exact Hs6]. }
  destruct Hn as [Hs Hz].
  pose proof (occ_replace legacy_import (replacement_import auth_type) legacy_free
                n s Hs1 Hs) as Ho.
  rewrite Hz, Hs2 in Ho. lia.
Qed.

Lemma str_in_replace_neutral (auth_type : string) (n s : text) :
  is_mode auth_type -> neutral n = true ->
  str_in n (str_replace legacy_import (replacement_import auth_type) s) = str_in n s.
Proof.
  intros Hm Hn. now rewrite !str_in_occ, occ_replace_neutral.
Qed.

(** ** Classes of characters along a text *)

Lemma take_drop_while (f : char -> bool) (s : text) :
  s = take_while f s ++ drop_while f s.
Proof.
  induction s as [|c s IH]; simpl; [reflexivity|].
  destruct (f c); simpl; [now f_equal|reflexivity].
Qed.

Lemma take_while_all (f : char -> bool) (s : text) : forallb f (take_while f s) = true.
Proof.
  induction s as [|c s IH]; simpl; [reflexivity|].
  destruct (f c) eqn:E; simpl; [now rewrite E|reflexivity].
Qed.

Lemma take_while_app (f : char -> bool) (a b : text) :
  forallb f a = true -> take_while f (a ++ b) = a ++ take_while f b.
Proof.
  induction a as [|c a IH]; simpl; [reflexivity|].
  intros H. apply andb_true_iff in H as [-> H]. now rewrite IH.
Qed.

Lemma take_while_stop (f : char -> bool) (a : text) (c : char) (b : text) :
  f c = false -> take_while f (a ++ c :: b) = take_while f a.
Proof.
  intros Hc. induction a as [|x a IH]; simpl; [now rewrite Hc|].
  destruct (f x); [now rewrite IH|reflexivity].
Qed.

Lemma drop_while_app (f : char -> bool) (a b : text) :
  forallb f a = true -> drop_while f (a ++ b) = drop_while f b.
Proof.
  induction a as [|c a IH]; simpl; [reflexivity|].
  intros H. apply andb_true_iff in H as [-> H]. now apply IH.
Qed.

Lemma drop_while_head (f : char -> bool) (s : text) :
  drop_while f s = [] \/ exists c s', drop_while f s = c :: s' /\ f c = false.
Proof.
  induction s as [|c s IH]; simpl; [now left|].
  destruct (f c) eqn:E; [exact IH|]. right. now exists c, s.
Qed.

(** Two texts that split into a run of the class and a rest outside of it
    split in the same way. *)
Lemma span_unique (f : char -> bool) (a b : text) (c d : char) (x y : text) :
  forallb f a = true -> forallb f b = true -> f c = false -> f d = false ->
  a ++ c :: x = b ++ d :: y -> a = b /\ c :: x = d :: y.
Proof.
  intros Ha Hb Hc Hd. revert b Hb; induction a as [|u a IH]; intros [|v b] Hb E.
  - now split.
  - simpl in E, Hb. injection E as -> _. apply andb_true_iff in Hb as [Hb _]. congruence.
  - simpl in E, Ha. injection E as -> _. apply andb_true_iff in Ha as [Ha _]. congruence.
  - simpl in E, Ha, Hb. injection E as -> E.
    apply andb_true_iff in Ha as [_ Ha]. apply andb_true_iff in Hb as [_ Hb].
    destruct (IH Ha b Hb E) as [-> ?]. now split.
Qed.

Lemma str_in_weaken (n a b : text) : str_in n a = true -> str_in n (a ++ b) = true.
Proof.
  intros H. destruct (str_in_inv n a H) as (x & y & ->).
  rewrite <- !app_assoc. apply str_in_intro.
Qed.

Lemma str_in_app_r (n a b : text) : str_in n b = true -> str_in n (a ++ b) = true.
Proof.
  intros H. destruct (str_in_inv n b H) as (x & y & ->).
  rewrite app_assoc. apply str_in_intro.
Qed.

Lemma str_in_cons_false (n : text) (c : char) (s : text) :
  str_in n (c :: s) = false -> str_in n s = false.
Proof.
  simpl. intros H. now apply orb_false_iff in H as [_ H].
Qed.

(** A literal whose first character is outside the class does not start in
    a run of the class. *)
Lemma occ_skip (f : char -> bool) (n ind t : text) :
  (exists h n', n = h :: n' /\ f h = false) -> forallb f ind = true ->
  occ n (ind ++ t) = occ n t.
Proof.
  intros (h & n' & -> & Hh). induction ind as [|c ind IH]; intros H; [reflexivity|].
  simpl in H. apply andb_true_iff in H as [Hc H].
  change (occ (h :: n') ((c :: ind) ++ t))
    with ((if starts_with (h :: n') (c :: ind ++ t) then 1 else 0)
          + occ (h :: n') (ind ++ t)).
  rewrite (IH H). simpl starts_with.
  destruct (N.eqb_spec h c) as [->|_]; [congruence|reflexivity].
Qed.

(** ** Lines *)

Lemma split_nl_nonempty (s : text) : split_nl s <> [].
Proof.
  destruct s as [|c s]; simpl; [easy|].
  destruct (N.eqb c NL); [easy|]. now destruct (split_nl s).
Qed.

Lemma split_nl_cons (c : char) (s : text) :
  N.eqb c NL = false ->
  exists l ls, split_nl s = l :: ls /\ split_nl (c :: s) = (c :: l) :: ls.
Proof.
  intros Hc. simpl. rewrite Hc.
  destruct (split_nl s) as [|l ls] eqn:E; [now apply split_nl_nonempty in E|].
  now exists l, ls.
Qed.

(** A literal without a line break that starts a text starts its first line. *)
Lemma split_nl_head (n b : text) :
  forallb not_newline n = true ->
  exists l ls, split_nl (n ++ b) = (n ++ l) :: ls.
Proof.
  induction n as [|c n IH]; intros H.
  - destruct (split_nl b) as [|l ls] eqn:E; [now apply split_nl_nonempty in E|].
    now exists l, ls.
  - simpl in H. apply andb_true_iff in H as [Hc H].
    unfold not_newline in Hc. apply negb_true_iff in Hc.
    destruct (IH H) as (l & ls & E).
    destruct (split_nl_cons c (n ++ b) Hc) as (l' & ls' & E1 & E2).
    rewrite E in E1. injection E1 as <- <-.
    exists l, ls. exact E2.
Qed.

(** A literal without a line break that occurs in a text occurs in one of
    its lines. *)
Lemma split_nl_has_line (n s : text) :
  forallb not_newline n = true -> str_in n s = true ->
  existsb (str_in n) (split_nl s) = true.
Proof.
  intros Hn H. destruct (str_in_inv n s H) as (a & b & ->). clear H.
  induction a as [|c a IH].
  - destruct (split_nl_head n b Hn) as (l & ls & E). simpl app. rewrite E.
    simpl. rewrite <- (app_nil_l (n ++ l)), str_in_intro. reflexivity.
  - destruct (N.eqb c NL) eqn:Hc.
    + simpl. rewrite Hc. simpl. rewrite IH. apply orb_true_r.
    + destruct (split_nl_cons c (a ++ n ++ b) Hc) as (l & ls & E1 & E2).
      change ((c :: a) ++ n ++ b) with (c :: a ++ n ++ b). rewrite E2.
      rewrite E1 in IH. simpl in IH. simpl existsb.
      apply orb_true_iff in IH as [IH|IH].
      * rewrite IH. rewrite orb_true_r. reflexivity.
      * rewrite IH. apply orb_true_r.
Qed.

(** ** The whole run *)

Section Run.

Variable uni_alnum : char -> bool.

Lemma fix_file_step (filepath auth_type : string) (w : world) :
  files w filepath <> Directory ->
  exists b w' r,
    fix_file uni_alnum filepath auth_type w = (Returned b, w') /\
    console w' = console w ++ [r] /\
    forall q, files w q <> Directory -> files w' q <> Directory.
Proof.
  intros Hf.
  pose proof (fix_file_outcome uni_alnum filepath auth_type w) as Ho.
  destruct (fix_file uni_alnum filepath auth_type w) as [res w'].
  cbn [fst snd] in Ho.
  inversion Ho as [H Hb Hw | H | c H Hin Hb Hw | c H Hin Hm Hb Hw | c H Hin Hm Hb Hw];
    subst; try contradiction;
    (eexists; eexists; eexists; split; [reflexivity|split; [reflexivity|]]);
    cbn [files]; auto.
  intros q Hq. unfold set_file. now destruct (String.eqb q filepath).
Qed.

(** The loop visits every task, and every task adds one to one counter and
    one line to the console. *)
Lemma process_total (tasks : list (string * string)) :
  forall (w : world) (fixed_count failed_count : nat),
    (forall filepath auth_type,
       In (filepath, auth_type) tasks -> files w filepath <> Directory) ->
    exists fixed failed w' out,
      process uni_alnum tasks fixed_count failed_count w = (Returned (fixed, failed), w') /\
      fixed + failed = fixed_count + failed_count + length tasks /\
      console w' = console w ++ out /\
      length out = length tasks.
Proof.
  induction tasks as [|[filepath auth_type] rest IH]; intros w fx fl Hd.
  - exists fx, fl, w, []. cbn. rewrite app_nil_r. repeat split; lia.
  - destruct (fix_file_step filepath auth_type w) as (b & w1 & r & Hrun & Hc & Hkeep).
    { apply (Hd filepath auth_type). now left. }
    assert (Hd1 : forall p a, In (p, a) rest -> files w1 p <> Directory).
    { intros p a Hin. apply Hkeep, (Hd p a). now right. }
    cbn [process]. unfold bind at 1. rewrite Hrun.
    destruct b.
    + destruct (IH w1 (S fx) fl Hd1) as (fx' & fl' & w' & out & Hp & Hsum & Hout & Hlen).
      exists fx', fl', w', (r :: out). rewrite Hp, Hout, Hc, <- app_assoc.
      repeat split; cbn [length app]; lia.
    + destruct (IH w1 fx (S fl) Hd1) as (fx' & fl' & w' & out & Hp & Hsum & Hout & Hlen).
      exists fx', fl', w', (r :: out). rewrite Hp, Hout, Hc, <- app_assoc.
      repeat split; cbn [length app]; lia.
Qed.

Lemma scan_back_id (visited : list text) (ts fs content : text) :
  insert_client uni_alnum ts fs content = content ->
  scan_back uni_alnum visited ts fs content = content.
Proof.
  intros H. induction visited as [|line earlier IH]; simpl; [reflexivity|].
  now destruct (_ || _).
Qed.

End Run.

(** ** The usage pattern *)

Lemma first_usage_lang (m : text) :
  regex_lang first_usage_pattern m <->
  exists ws d o,
    m = [NL] ++ ws ++ d ++ o ++ lit "supabase." /\
    ws <> [] /\ forallb is_space ws = true /\ forallb not_newline d = true /\
    (o = lit "await " \/ o = []).
Proof.
  unfold first_usage_pattern. cbn [regex_lang atom_lang]. split.
  - intros (m1 & r1 & -> & -> & ws & r2 & -> & (Hne & Hws) & d & r3 & -> & Hd &
            o & r4 & -> & Ho & m5 & r5 & -> & -> & ->).
    exists ws, d, o. rewrite app_nil_r. repeat split; auto.
  - intros (ws & d & o & -> & Hne & Hws & Hd & Ho).
    exists [NL], (ws ++ d ++ o ++ lit "supabase."). repeat split.
    exists ws, (d ++ o ++ lit "supabase."). repeat split; auto.
    exists d, (o ++ lit "supabase."). repeat split; auto.
    exists o, (lit "supabase."). repeat split; auto.
    exists (lit "supabase."), []. now rewrite app_nil_r.
Qed.

(** Dropping the indentation of a line that uses the client keeps the use. *)
Lemma drop_while_usage (d r : text) :
  forallb not_newline d = true ->
  exists d',
    drop_while is_space (d ++ lit "supabase." ++ r) = d' ++ lit "supabase." ++ r /\
    forallb not_newline d' = true.
Proof.
  induction d as [|c d IH]; intros H.
  - exists []. split; reflexivity.
  - simpl in H. apply andb_true_iff in H as [Hc H].
    simpl. destruct (is_space c).
    + exact (IH H).
    + exists (c :: d). simpl. now rewrite Hc, H.
Qed.

(** After its line break, a match of the usage pattern is a usage line. *)
Lemma usage_match_line (m r : text) :
  regex_lang first_usage_pattern m ->
  exists s, m ++ r = NL :: s /\ usage_line s = true.
Proof.
  intros Hm. apply first_usage_lang in Hm as (ws & d & o & -> & _ & Hws & Hd & Ho).
  exists (ws ++ (d ++ o) ++ lit "supabase." ++ r). split.
  - simpl. now rewrite <- !app_assoc.
  - unfold usage_line. rewrite (drop_while_app is_space ws _ Hws).
    assert (Hdo : forallb not_newline (d ++ o) = true).
    { rewrite forallb_app, Hd. now destruct Ho as [-> | ->]. }
    destruct (drop_while_usage (d ++ o) r Hdo) as (d' & -> & Hd').
    rewrite (take_while_app not_newline d' _ Hd').
    rewrite (take_while_app not_newline (lit "supabase.") r) by reflexivity.
    apply str_in_intro.
Qed.

Lemma str_in_take_while (f : char -> bool) (n s : text) :
  str_in n (take_while f s) = true -> str_in n s = true.
Proof.
  intros H. rewrite (take_drop_while f s). now apply str_in_weaken.
Qed.

Lemma starts_after_try_open (body : text) :
  take_while not_newline (drop_while is_space (try_open ++ [NL] ++ body)) = lit "try {".
Proof.
  reflexivity.
Qed.

(** Between a text that does not use the client and the end of the
    try-block opening there is no usage line. *)
Lemma no_usage_line (z ind body : text) :
  str_in (lit "supabase.") z = false -> forallb is_space ind = true ->
  usage_line (z ++ [NL] ++ ind ++ try_open ++ [NL] ++ body) = false.
Proof.
  intros Hz Hind. unfold usage_line. induction z as [|c z IH].
  - change ([] ++ [NL] ++ ind ++ try_open ++ [NL] ++ body)
      with (([NL] ++ ind) ++ try_open ++ [NL] ++ body).
    rewrite drop_while_app by (simpl; exact Hind).
    rewrite starts_after_try_open. reflexivity.
  - remember (ind ++ try_open ++ [NL] ++ body) as R eqn:HR.
    change ((c :: z) ++ [NL] ++ R) with (c :: (z ++ [NL] ++ R)).
    cbn [drop_while]. destruct (is_space c).
    + apply IH. now apply str_in_cons_false in Hz.
    + change (c :: z ++ [NL] ++ R) with ((c :: z) ++ NL :: R).
      rewrite take_while_stop by reflexivity.
      destruct (str_in _ (take_while not_newline (c :: z))) eqn:E; [|reflexivity].
      apply str_in_take_while in E. congruence.
Qed.

(** In a text that opens its first use of the client after a try-block
    opening, every match of the usage pattern starts after the header. *)
Lemma usage_after_header (A ind body a0 m r0 : text) :
  str_in (lit "supabase.") A = false -> forallb is_space ind = true ->
  regex_lang first_usage_pattern m ->
  a0 ++ m ++ r0 = A ++ [NL] ++ ind ++ try_open ++ [NL] ++ body ->
  exists a1, a0 = A ++ a1.
Proof.
  intros HA Hind Hm E.
  remember ([NL] ++ ind ++ try_open ++ [NL] ++ body) as R eqn:HR.
  apply app_eq_app in E as [l [[-> _] | [-> E]]]; [now exists l|].
  destruct l as [|c z]; [exists []; now rewrite !app_nil_r|]. exfalso.
  destruct (usage_match_line m r0 Hm) as (s & Hs & Hline).
  rewrite E in Hs. change ((c :: z) ++ R) with (c :: (z ++ R)) in Hs.
  injection Hs as -> <-.
  assert (Hz : str_in (lit "supabase.") z = false).
  { destruct (str_in (lit "supabase.") z) eqn:Hz; [|reflexivity].
    rewrite <- HA. symmetry. apply str_in_app_r.
    change (str_in (lit "supabase.") (NL :: z))
      with (starts_with (lit "supabase.") (NL :: z) || str_in (lit "supabase.") z).
    rewrite Hz. apply orb_true_r. }
  subst R. rewrite (no_usage_line z ind body Hz Hind) in Hline. discriminate.
Qed.

(** ** The try-block substitution *)

Lemma nl_last_unique (p y n2 : text) :
  forallb not_newline p = true -> p ++ [NL] = y ++ [NL] ++ n2 -> n2 = [].
Proof.
  revert y; induction p as [|c p IH]; intros y Hp E.
  - destruct y as [|d y]; simpl in E.
    + now injection E.
    + injection E as _ E. now destruct y.
  - simpl in Hp. apply andb_true_iff in Hp as [Hc Hp].
    destruct y as [|d y]; simpl in E; injection E as -> E.
    + discriminate.
    + now apply (IH y).
Qed.

Lemma suffix_ends (a b l : text) (x : char) :
  a ++ b = l ++ [x] -> b <> [] -> exists y, b = y ++ [x].
Proof.
  revert l; induction a as [|u a IH]; intros l E Hb.
  - now exists l.
  - destruct l as [|v l]; simpl in E; injection E as -> E.
    + apply app_eq_nil in E as [_ ->]. easy.
    + now apply (IH l).
Qed.

Lemma forallb_or_split (f : char -> bool) (z : text) :
  forallb f z = true \/
  exists z1 c z2, z = z1 ++ c :: z2 /\ forallb f z1 = true /\ f c = false.
Proof.
  destruct (drop_while_head f z) as [E | (c & z2 & E & Hc)].
  - left. rewrite (take_drop_while f z), E, app_nil_r. apply take_while_all.
  - right. exists (take_while f z), c, z2. rewrite <- E.
    repeat split; auto using take_drop_while, take_while_all.
Qed.

(** What follows a run of white space before the first try-block opening. *)
Lemma try_after_spaces (A l ws r0 ind2 body : text) :
  str_in (lit "try {" ++ [NL]) (A ++ l ++ [NL]) = false ->
  forallb is_space ws = true -> forallb is_space ind2 = true ->
  (l = [] \/ exists l', l = NL :: l') ->
  [NL] ++ ws ++ (lit "try {" ++ [NL]) ++ r0 =
  (l ++ [NL]) ++ ind2 ++ (lit "try {" ++ [NL]) ++ body ->
  r0 = body /\ [NL] ++ ws = (l ++ [NL]) ++ ind2.
Proof.
  intros Hno Hws Hind Hl E.
  assert (Hz : exists z, l ++ [NL] = NL :: z /\ (z = [] \/ exists y, z = y ++ [NL])).
  { destruct Hl as [-> | (l' & ->)].
    - exists []. split; [reflexivity|now left].
    - exists (l' ++ [NL]). split; [reflexivity|]. right. now exists l'. }
  destruct Hz as (z & Hz & Hzend). rewrite Hz in E, Hno |- *.
  remember (lit "try {" ++ [NL]) as T eqn:HT.
  assert (Hhead : forall r, T ++ r = 116%N :: (lit "ry {" ++ [NL]) ++ r)
    by (intros r; rewrite HT; reflexivity).
  cbn [app] in E. injection E as E.
  destruct (forallb_or_split is_space z) as [Hall | (z1 & d & z2 & -> & Hz1 & Hd)].
  - rewrite (app_assoc z ind2), !Hhead in E.
    apply span_unique with (f := is_space) in E as [-> E];
      [| exact Hws | now rewrite forallb_app, Hall, Hind | reflexivity | reflexivity].
    rewrite <- !Hhead in E. apply app_inv_head in E. now split.
  - exfalso. rewrite <- !app_assoc, Hhead in E. cbn [app] in E.
    apply span_unique with (f := is_space) in E as [-> E];
      [| exact Hws | exact Hz1 | reflexivity | exact Hd].
    rewrite <- Hhead in E.
    assert (Hsw : starts_with T ((d :: z2) ++ ind2 ++ T ++ body) = true).
    { cbn [app]. rewrite <- E. apply starts_with_app. }
    apply starts_with_app_inv in Hsw as [Hsw | (n2 & Hn2 & Hne & _)].
    + change (NL :: z1 ++ d :: z2) with (([NL] ++ z1) ++ d :: z2) in Hno.
      rewrite app_assoc, str_in_app_r in Hno; [discriminate|].
      now apply str_in_head.
    + destruct Hzend as [Hnil | (y & Hy)]; [now destruct z1|].
      destruct (suffix_ends z1 (d :: z2) y NL Hy) as (y' & Hy'); [easy|].
      rewrite Hy', HT, <- app_assoc in Hn2.
      apply nl_last_unique in Hn2; [contradiction|reflexivity].
Qed.

(** The substitution puts the statement right after the first try-block
    opening of the text. *)
Lemma try_sub_shape (A ind body ts : text) :
  str_in (lit "try {" ++ [NL]) (A ++ [NL]) = false ->
  forallb is_space ind = true ->
  re_sub1 try_pattern ts (A ++ [NL] ++ ind ++ try_open ++ [NL] ++ body) =
  A ++ [NL] ++ ind ++ try_open ++ [NL] ++ ts ++ body.
Proof.
  intros Hno Hind.
  remember (lit "try {" ++ [NL]) as T eqn:HT.
  remember (ind ++ lit "  ") as ind2 eqn:Hind2.
  assert (Hc : forall x, [NL] ++ ind ++ try_open ++ [NL] ++ x = [NL] ++ ind2 ++ T ++ x).
  { intros x. rewrite Hind2, HT, <- !app_assoc. reflexivity. }
  assert (Hsp : forallb is_space ind2 = true).
  { rewrite Hind2, forallb_app, Hind. reflexivity. }
  rewrite !Hc.
  assert (Hlang : regex_lang try_pattern ([NL] ++ ind2 ++ T)).
  { apply try_pattern_lang. exists ind2. rewrite HT. repeat split; auto.
    rewrite Hind2. now destruct ind. }
  destruct (search_from_complete try_pattern A (([NL] ++ ind2 ++ T) ++ body) 0
              (match_here_complete _ _ body Hlang)) as (mt & Hs & Hle).
  rewrite <- !app_assoc in Hs.
  destruct (re_sub1_some try_pattern ts _ mt Hs) as (a0 & m & r0 & E & Hm & Hst & ->).
  apply try_pattern_lang in Hm as (ws & -> & _ & Hws). rewrite <- HT in *.
  assert (Hl : exists l, A = a0 ++ l /\
             [NL] ++ ws ++ T ++ r0 = (l ++ [NL]) ++ ind2 ++ T ++ body).
  { rewrite <- !app_assoc in E.
    apply app_eq_app in E as [l [[H1 H2] | [H1 H2]]].
    - exists l. split; [exact H1|]. rewrite <- app_assoc. exact H2.
    - exists []. assert (l = []) as ->.
      { rewrite Hst, H1, length_app in Hle. destruct l; [reflexivity|simpl in Hle; lia]. }
      rewrite app_nil_r in H1. rewrite app_nil_r. split; [now symmetry|].
      symmetry. exact H2. }
  destruct Hl as (l & -> & El).
  assert (Hhead : l = [] \/ exists l', l = NL :: l').
  { destruct l as [|c l']; [now left|]. right. exists l'.
    cbn [app] in El. now injection El as <-. }
  rewrite <- app_assoc in Hno. subst T.
  destruct (try_after_spaces a0 l ws r0 ind2 body Hno Hws Hsp Hhead El) as [-> Ew].
  rewrite <- !app_assoc. f_equal.
  rewrite (app_assoc [NL] ws), Ew, <- !app_assoc. reflexivity.
Qed.

(** ** The end-to-end file *)

Lemma existsb_rev_true (f : text -> bool) (ls : list text) :
  existsb f ls = true -> existsb f (rev ls) = true.
Proof.
  rewrite !existsb_exists. intros (x & Hin & Hx). exists x. split; [|exact Hx].
  now apply in_rev in Hin.
Qed.

Lemma legacy_head : exists h n', legacy_import = h :: n' /\ is_space h = false.
Proof.
  exists 105%N, (skipn 1 legacy_import). split; reflexivity.
Qed.

(** The import is replaced in the header, and nothing else changes. *)
Lemma replace_shape (auth_type : string) (pre ind body : text) :
  forallb is_space ind = true -> str_in legacy_import body = false ->
  str_replace legacy_import (replacement_import auth_type)
    (pre ++ [NL] ++ ind ++ try_open ++ [NL] ++ body) =
  str_replace legacy_import (replacement_import auth_type) pre
  ++ [NL] ++ ind ++ try_open ++ [NL] ++ body.
Proof.
  intros Hind Hbody. apply str_in_false_occ in Hbody.
  assert (Hnl : straddle_free legacy_import [NL] = true) by (vm_compute; reflexivity).
  rewrite (replace_sandwich legacy_import _ legacy_free [NL] pre _ Hnl eq_refl).
  do 2 f_equal. apply (replace_id _ _ legacy_free).
  rewrite (occ_skip is_space legacy_import ind _ legacy_head Hind).
  rewrite (occ_sandwich legacy_import [NL] try_open body Hnl), Hbody. reflexivity.
Qed.

Lemma replace_header_nl (auth_type : string) (pre : text) :
  str_replace legacy_import (replacement_import auth_type) (pre ++ [NL]) =
  str_replace legacy_import (replacement_import auth_type) pre ++ [NL].
Proof.
  assert (Hnl : straddle_free legacy_import [NL] = true) by (vm_compute; reflexivity).
  pose proof (replace_sandwich legacy_import (replacement_import auth_type)
                legacy_free [NL] pre [] Hnl eq_refl) as H.
  exact H.
Qed.

Section EndToEnd.

Variable uni_alnum : char -> bool.

Lemma scan_back_found (visited : list text) (ts fs content : text) :
  existsb (fun line => str_in export_async_function line || str_in export_function line)
    visited = true ->
  scan_back uni_alnum visited ts fs content = insert_client uni_alnum ts fs content.
Proof.
  induction visited as [|line earlier IH]; simpl; [discriminate|].
  destruct (str_in export_async_function line || str_in export_function line);
    [reflexivity|exact IH].
Qed.

(** The migration of the end-to-end file. *)
Lemma rewrite_try_shape (auth_type : string) (pre ind stmts w l rest : text) :
  is_mode auth_type ->
  try_block_shape pre ind stmts w l rest ->
  rewrite uni_alnum auth_type (try_block_file pre ind stmts w l rest) =
  migrated_file auth_type pre ind stmts w l rest.
Proof.
  intros Hm (Hleg & Hexp & Hsupa & Htry & Hind & Hstmts & Hw & Hws & Hl & Hbody).
  rewrite rewrite_mode by exact Hm.
  unfold migrate, try_block_file, migrated_file.
  rewrite (replace_shape auth_type pre ind _ Hind Hbody).
  remember (str_replace legacy_import (replacement_import auth_type) pre) as A eqn:HA.
  remember (try_block_body stmts w l rest) as body eqn:Hb.
  assert (HAsupa : str_in (lit "supabase.") A = false).
  { rewrite HA, str_in_replace_neutral; [exact Hsupa|exact Hm|vm_compute; reflexivity]. }
  assert (HAexp : str_in export_async_function A = true \/
                  str_in export_function A = true).
  { destruct Hexp as [Hexp | Hexp]; [left | right];
      (rewrite HA, str_in_replace_neutral; [exact Hexp|exact Hm|vm_compute; reflexivity]). }
  assert (HAtry : str_in (lit "try {" ++ [NL]) (A ++ [NL]) = false).
  { rewrite HA, <- replace_header_nl, str_in_replace_neutral;
      [exact Htry|exact Hm|vm_compute; reflexivity]. }
  remember (A ++ [NL] ++ ind ++ try_open ++ [NL] ++ body) as c' eqn:Hc'.
  (* the usage pattern matches *)
  assert (Huse : exists P,
            c' = P ++ ([NL] ++ w ++ l ++ [] ++ lit "supabase.") ++ rest).
  { rewrite Hc', Hb. unfold try_block_body.
    destruct Hstmts as [-> | (s0 & ->)].
    - exists (A ++ [NL] ++ ind ++ try_open). now rewrite <- !app_assoc.
    - exists (A ++ [NL] ++ ind ++ try_open ++ [NL] ++ s0). now rewrite <- !app_assoc. }
  destruct Huse as (P & HP).
  assert (Hlang : regex_lang first_usage_pattern
                    ([NL] ++ w ++ l ++ [] ++ lit "supabase.")).
  { apply first_usage_lang. exists w, l, []. repeat split; auto. }
  destruct (search_from_complete first_usage_pattern P _ 0
              (match_here_complete _ _ rest Hlang))
    as (mt & Hs & _).
  rewrite <- HP in Hs. unfold re_search. rewrite Hs.
  (* and starts after the header, where the declaration is *)
  destruct (search_from_sound _ _ _ _ Hs) as (a0 & m & r0 & E & Hm0 & Hst & _).
  assert (Hfirst : firstn (m_start mt) c' = a0).
  { rewrite Hst, E. apply firstn_exact. }
  rewrite Hfirst.
  assert (Ha1 : exists a1, a0 = A ++ a1).
  { apply (usage_after_header A ind body a0 m r0 HAsupa Hind Hm0).
    now rewrite <- E, Hc'. }
  destruct Ha1 as (a1 & ->).
  rewrite scan_back_found.
  2:{ apply existsb_rev_true.
      destruct HAexp as [HAexp | HAexp].
      - assert (Hline : existsb (str_in export_async_function) (split_nl (A ++ a1)) = true).
        { apply split_nl_has_line; [reflexivity|]. now apply str_in_weaken. }
        apply existsb_exists in Hline as (x & Hin & Hx).
        apply existsb_exists. exists x. split; [exact Hin|]. now rewrite Hx.
      - assert (Hline : existsb (str_in export_function) (split_nl (A ++ a1)) = true).
        { apply split_nl_has_line; [reflexivity|]. now apply str_in_weaken. }
        apply existsb_exists in Hline as (x & Hin & Hx).
        apply existsb_exists. exists x. split; [exact Hin|].
        rewrite Hx. apply orb_true_r. }
  (* the file has a two-space-indented try-block opening *)
  unfold insert_client.
  assert (Hopen : str_in try_open c' = true).
  { rewrite Hc'. rewrite (app_assoc A), (app_assoc (A ++ [NL])).
    apply str_in_intro. }
  rewrite Hopen, Hc'. apply try_sub_shape; assumption.
Qed.

End EndToEnd.

Lemma occ_replacement_header (auth_type : string) (s : text) :
  is_mode auth_type ->
  occ (replacement_import auth_type)
    (str_replace legacy_import (replacement_import auth_type) s) =
  occ legacy_import s + occ (replacement_import auth_type) s.
Proof.
  intros Hm.
  assert (Hn : straddle_free (replacement_import auth_type) legacy_import = true
               /\ straddle_free (replacement_import auth_type)
                    (replacement_import auth_type) = true
               /\ occ (replacement_import auth_type) legacy_import = 0
               /\ replacement_import auth_type <> []).
  { destruct Hm as [-> | ->]; repeat split; try (vm_compute; reflexivity); easy. }
  destruct Hn as (H1 & H2 & H3 & H4).
  pose proof (occ_replace legacy_import (replacement_import auth_type) legacy_free
                (replacement_import auth_type) s H1 H2) as H.
  rewrite H3, (occ_self _ H4) in H. lia.
Qed.

Section EndToEndRun.

Variable uni_alnum : char -> bool.

(** [fix_file] on the end-to-end file, in either mode. *)
Lemma fix_file_try_shape
    (filepath auth_type : string) (pre ind stmts w l rest : text) (wd : world) :
  is_mode auth_type ->
  files wd filepath = TextFile (try_block_file pre ind stmts w l rest) ->
  try_block_shape pre ind stmts w l rest ->
  fix_file uni_alnum filepath auth_type wd =
  (Returned true,
   {| files := set_file (files wd) filepath
                 (TextFile (migrated_file auth_type pre ind stmts w l rest));
      console := console wd ++ [Fixed filepath auth_type] |}) /\
  str_in (replacement_import auth_type)
    (migrated_file auth_type pre ind stmts w l rest) = true.
Proof.
  intros Hm Hf Hshape. split.
  - rewrite <- (rewrite_try_shape uni_alnum auth_type pre ind stmts w l rest Hm Hshape).
    apply fix_file_rewrites; [exact Hf| |exact Hm].
    destruct Hshape as (Hleg & _). unfold try_block_file. now apply str_in_weaken.
  - destruct Hshape as (Hleg & _). unfold migrated_file.
    apply str_in_weaken, str_in_true_occ.
    rewrite (occ_replacement_header auth_type pre Hm).
    apply str_in_true_occ in Hleg. lia.
Qed.

End EndToEndRun.

(** ** The fallback pattern across the import replacement *)

(** Where a character that [n] does not have lies in [x ++ n ++ y]. *)
Lemma split_at_char (c : char) (u v x n y : text) :
  u ++ c :: v = x ++ n ++ y -> ~ In c n ->
  (exists x2, x = u ++ c :: x2 /\ v = x2 ++ n ++ y) \/
  (exists y1, u = x ++ n ++ y1 /\ y = y1 ++ c :: v).
Proof.
  intros E Hc. apply app_eq_app in E as [k [[-> E] | [-> E]]].
  - apply app_eq_app in E as [k' [[-> E] | [-> E]]].
    + destruct k' as [|d k'].
      * right. exists []. simpl in E. subst y. rewrite !app_nil_r. now split.
      * injection E as <- _. exfalso. apply Hc, in_or_app. right. now left.
    + right. exists k'. now split.
  - destruct k as [|d k].
    + destruct n as [|d n].
      * right. exists []. simpl in E. subst y. rewrite !app_nil_r. now split.
      * injection E as <- _. exfalso. apply Hc. now left.
    + injection E as <- E. left. exists k. now split.
Qed.

Lemma search_matches (p : regex) (s : text) :
  re_search p s <> None <-> matches_in p s.
Proof.
  split.
  - destruct (re_search p s) as [mt|] eqn:E; [intros _|easy].
    apply search_from_sound in E as (a & m & r & -> & Hm & _).
    now exists a, m, r.
  - intros (a & m & r & -> & Hm).
    destruct (search_from_complete p a (m ++ r) 0) as (mt & H & _).
    + exact (match_here_complete p m r Hm).
    + unfold re_search. now rewrite H.
Qed.

Lemma replacement_import_chars (auth_type : string) :
  is_mode auth_type ->
  forallb (fun c => negb (c =? 40)%N && negb (c =? 41)%N) (replacement_import auth_type)
  = true /\
  exists n0, replacement_import auth_type = 105%N :: n0 ++ [39%N].
Proof.
  intros [-> | ->]; (split; [vm_compute; reflexivity|]).
  - exists (removelast (tl user_import)). vm_compute; reflexivity.
  - exists (removelast (tl service_import)). vm_compute; reflexivity.
Qed.

Ltac norm_app := repeat (progress (rewrite <- ?app_assoc; cbn [app])).

Section Declarations.

Variable uni_alnum : char -> bool.

(** A match of the fallback pattern next to or around a replacement import
    is one next to or around the legacy import. *)
Lemma func_match_swap (auth_type : string) (x y : text) :
  is_mode auth_type ->
  matches_in (func_pattern uni_alnum) (x ++ replacement_import auth_type ++ y) ->
  matches_in (func_pattern uni_alnum) (x ++ legacy_import ++ y).
Proof.
  intros Hmode (a & m & r & E & Hm).
  destruct (replacement_import_chars auth_type Hmode) as (Hnew & n0 & Hform).
  remember (replacement_import auth_type) as new eqn:Hn. clear Hn.
  assert (Hlp : ~ In 40%N new).
  { intros Hin. rewrite forallb_forall in Hnew. now apply Hnew in Hin. }
  assert (Hrp : ~ In 41%N new).
  { intros Hin. rewrite forallb_forall in Hnew. now apply Hnew in Hin. }
  apply (proj1 (func_pattern_lang_full uni_alnum m)) in Hm
    as (name & args & -> & Hne & Hname & Hargs).
  remember (lit "export async function ") as D eqn:HD.
  assert (HE : a ++ D ++ name ++ lit "(" ++ args ++ lit ") {" ++ [NL] ++ r =
               (a ++ D ++ name) ++ 40%N :: args ++ 41%N :: lit " {" ++ [NL] ++ r).
  { now rewrite <- !app_assoc. }
  rewrite <- !app_assoc in E. rewrite HE in E. symmetry in E.
  apply split_at_char in E as [(x2 & -> & E) | (y1 & E & ->)]; [| |exact Hlp].
  - (* the parameter list opens before the import *)
    apply split_at_char in E as [(x3 & -> & E) | (y1 & -> & ->)]; [| |exact Hrp].
    + (* and closes before it *)
      assert (Hx3 : exists t, x3 = lit " {" ++ [NL] ++ t).
      { subst new. change (x3 ++ (105%N :: n0 ++ [39%N]) ++ y)
          with (x3 ++ 105%N :: (n0 ++ [39%N]) ++ y) in E.
        symmetry in E.
        change (lit " {" ++ [NL] ++ r) with ([] ++ (lit " {" ++ [NL]) ++ r) in E.
        apply split_at_char in E as [(x4 & Hx & _) | (t & -> & _)].
        - now destruct x3.
        - now exists t.
        - vm_compute. intuition discriminate. }
      destruct Hx3 as (t & ->).
      exists a, (D ++ name ++ lit "(" ++ args ++ lit ") {" ++ [NL]),
        (t ++ legacy_import ++ y).
      split; [norm_app; reflexivity|].
      apply func_pattern_lang_full. exists name, args. subst D. auto.
    + (* and closes after it: the import is among the parameters *)
      exists a, (D ++ name ++ lit "(" ++ (x2 ++ legacy_import ++ y1) ++ lit ") {" ++ [NL]), r.
      split; [norm_app; reflexivity|].
      apply func_pattern_lang_full. exists name, (x2 ++ legacy_import ++ y1).
      subst D. repeat split; auto.
      rewrite !forallb_app in *. apply andb_true_iff in Hargs as [H1 H2].
      apply andb_true_iff in H2 as [_ H2]. rewrite H1, H2.
      vm_compute; reflexivity.
  - (* the parameter list opens after the import: so does the declaration *)
    assert (Ha : exists a', a = x ++ new ++ a').
    { subst new.
      change (x ++ (105%N :: n0 ++ [39%N]) ++ y1)
        with (x ++ (105%N :: n0 ++ [39%N]) ++ y1) in E.
      assert (E' : (x ++ 105%N :: n0) ++ 39%N :: y1 = a ++ (D ++ name) ++ []).
      { rewrite app_nil_r, E. cbn [app]. now rewrite <- !app_assoc. }
      apply split_at_char in E' as [(a' & -> & _) | (t & _ & Ht)].
      - exists a'. cbn [app]. now rewrite <- !app_assoc.
      - now destruct t.
      - intros Hin. apply in_app_or in Hin as [Hin | Hin].
        + subst D. vm_compute in Hin. intuition discriminate.
        + rewrite forallb_forall in Hname. apply Hname in Hin.
          vm_compute in Hin. discriminate. }
    destruct Ha as (a' & ->).
    rewrite <- !app_assoc in E. apply app_inv_head in E. apply app_inv_head in E.
    subst y1.
    exists (x ++ legacy_import ++ a'),
      (D ++ name ++ lit "(" ++ args ++ lit ") {" ++ [NL]), r.
    split; [norm_app; reflexivity|].
    apply func_pattern_lang_full. exists name, args. subst D. auto.
Qed.

(** The import replacement brings no match of the fallback pattern. *)
Lemma func_match_replaced (auth_type : string) (s : text) :
  is_mode auth_type ->
  matches_in (func_pattern uni_alnum)
    (str_replace legacy_import (replacement_import auth_type) s) ->
  matches_in (func_pattern uni_alnum) s.
Proof.
  intros Hmode.
  assert (H : forall pre,
            matches_in (func_pattern uni_alnum)
              (pre ++ str_replace legacy_import (replacement_import auth_type) s) ->
            matches_in (func_pattern uni_alnum) (pre ++ s));
    [|exact (H [])].
  apply (replace_ind legacy_import (replacement_import auth_type) legacy_free
           (fun s s' => forall pre,
              matches_in (func_pattern uni_alnum) (pre ++ s') ->
              matches_in (func_pattern uni_alnum) (pre ++ s))).
  - auto.
  - intros u r _ IH pre Hin.
    rewrite app_assoc. apply func_match_swap with auth_type; [exact Hmode|].
    rewrite <- app_assoc.
    specialize (IH (pre ++ u ++ replacement_import auth_type)).
    rewrite <- !app_assoc in IH. apply IH. exact Hin.
Qed.

End Declarations.

(** ** Files that need nothing, files that are missing, and the second run *)

Section Claims.

Variable uni_alnum : char -> bool.

(** C1, as amended.  The end-to-end file: a header with the legacy import
    and the declaration of an exported function, in which the client is not
    named and no line ends in [try {]; then the try-block opening, on a line
    of its own that ends in [  try {] with only whitespace before it; then
    the block, which after complete lines has an indented line that uses the
    client, such as [const { data } = await supabase.from(...)], and does
    not repeat the legacy import.  Processed in mode "user", the file is
    written back with the import [createClient] from
    [@/utils/supabase/server] in place of the legacy one and the line
    [const supabase = await createClient()] directly after the try-block
    opening, the rest as it was; "fixed" is printed and [fix_file] returns
    [True]. *)
Theorem C1_user_statement_after_try
    (filepath : string) (pre ind stmts w l rest : text) (wd : world) :
  files wd filepath = TextFile (try_block_file pre ind stmts w l rest) ->
  try_block_shape pre ind stmts w l rest ->
  fix_file uni_alnum filepath "user" wd =
  (Returned true,
   {| files := set_file (files wd) filepath
                 (TextFile (migrated_file "user" pre ind stmts w l rest));
      console := console wd ++ [Fixed filepath "user"] |}) /\
  migrated_file "user" pre ind stmts w l rest =
  str_replace legacy_import user_import pre
  ++ [NL] ++ ind ++ try_open ++ [NL]
  ++ (lit "    const supabase = await createClient()" ++ [NL])
  ++ try_block_body stmts w l rest /\
  str_in (lit "import { createClient } from '@/utils/supabase/server'")
    (migrated_file "user" pre ind stmts w l rest) = true.
Proof.
  intros Hf Hshape.
  destruct (fix_file_try_shape uni_alnum filepath "user" pre ind stmts w l rest wd
              (or_introl eq_refl) Hf Hshape) as [Hrun Himp].
  repeat split; [exact Hrun|exact Himp].
Qed.

(** C2, as amended.  A file of the same shape, its exported function async
    or not, processed in mode "service" is written back with the import
    [createServiceRoleClient] from [@/utils/supabase/service-role] and the
    synchronous line [const supabase = createServiceRoleClient()] directly
    after the try-block opening, where mode "user" puts the asynchronous
    [const supabase = await createClient()]. *)
Theorem C2_service_statement_after_try
    (filepath : string) (pre ind stmts w l rest : text) (wd : world) :
  files wd filepath = TextFile (try_block_file pre ind stmts w l rest) ->
  try_block_shape pre ind stmts w l rest ->
  fix_file uni_alnum filepath "service" wd =
  (Returned true,
   {| files := set_file (files wd) filepath
                 (TextFile (migrated_file "service" pre ind stmts w l rest));
      console := console wd ++ [Fixed filepath "service"] |}) /\
  migrated_file "service" pre ind stmts w l rest =
  str_replace legacy_import service_import pre
  ++ [NL] ++ ind ++ try_open ++ [NL]
  ++ (lit "    const supabase = createServiceRoleClient()" ++ [NL])
  ++ try_block_body stmts w l rest /\
  str_in (lit "import { createServiceRoleClient } from '@/utils/supabase/service-role'")
    (migrated_file "service" pre ind stmts w l rest) = true /\
  rewrite uni_alnum "user" (try_block_file pre ind stmts w l rest) =
  str_replace legacy_import user_import pre
  ++ [NL] ++ ind ++ try_open ++ [NL]
  ++ (lit "    const supabase = await createClient()" ++ [NL])
  ++ try_block_body stmts w l rest.
Proof.
  intros Hf Hshape.
  destruct (fix_file_try_shape uni_alnum filepath "service" pre ind stmts w l rest wd
              (or_intror eq_refl) Hf Hshape) as [Hrun Himp].
  repeat split; [exact Hrun|exact Himp|].
  now rewrite (rewrite_try_shape uni_alnum "user" pre ind stmts w l rest (or_introl eq_refl)).
Qed.

(** C5. A readable file whose content does not contain the legacy import is
    left as it is: nothing is written, the "already fixed" line is printed
    and [fix_file] returns [True], whatever the mode. *)
Theorem C5_no_legacy_import_unchanged
    (filepath auth_type : string) (content : text) (w : world) :
  files w filepath = TextFile content ->
  str_in legacy_import content = false ->
  fix_file uni_alnum filepath auth_type w =
  (Returned true,
   {| files := files w; console := console w ++ [AlreadyFixed filepath] |}).
Proof.
  intros Hf Hin. now apply fix_file_clean with content.
Qed.


(** C6. When a first run of [fix_file] has rewritten a file, a second run
    on the result (in any mode) prints "already fixed", returns [True] and
    leaves every file as the first run left it. *)
Theorem C6_second_run_already_fixed
    (filepath auth1 auth2 : string) (w w1 : world) (b : bool) :
  fix_file uni_alnum filepath auth1 w = (Returned b, w1) ->
  files w1 filepath <> files w filepath ->
  fix_file uni_alnum filepath auth2 w1 =
  (Returned true,
   {| files := files w1; console := console w1 ++ [AlreadyFixed filepath] |}).
Proof.
  intros Hrun Hchanged.
  pose proof (fix_file_outcome uni_alnum filepath auth1 w) as Ho.
  rewrite Hrun in Ho. cbn [fst snd] in Ho.
  inversion Ho as [Hf Hb Hw | Hf | c Hf Hin Hb Hw | c Hf Hin Hm Hb Hw | c Hf Hin Hm Hb Hw];
    subst; try (now exfalso; apply Hchanged).
  apply fix_file_clean with (rewrite uni_alnum auth1 c).
  - cbn [files]. apply set_file_same.
  - apply str_in_false_occ. now apply occ_legacy_rewrite.
Qed.

(** C4, as amended.  In mode "user" or "service", a readable file that has
    the legacy import but no match of the usage pattern still gets its
    import replaced: the file is written with exactly that change, "fixed"
    is printed and [fix_file] returns [True]. *)
Theorem C4_import_replaced_without_usage
    (filepath auth_type : string) (content : text) (w : world) :
  files w filepath = TextFile content ->
  str_in legacy_import content = true ->
  is_mode auth_type ->
  re_search first_usage_pattern
    (str_replace legacy_import (replacement_import auth_type) content) = None ->
  fix_file uni_alnum filepath auth_type w =
  (Returned true,
   {| files := set_file (files w) filepath
                 (TextFile (str_replace legacy_import (replacement_import auth_type)
                              content));
      console := console w ++ [Fixed filepath auth_type] |}).
Proof.
  intros Hf Hin Hm Hno.
  rewrite (fix_file_rewrites uni_alnum filepath auth_type content w Hf Hin Hm).
  rewrite rewrite_mode by exact Hm. unfold migrate. now rewrite Hno.
Qed.

(** C3, as amended.  In mode "user" or "service", a readable file that has
    the legacy import is rewritten to a text without the legacy import, in
    which the mode's replacement import occurs once for every legacy import
    of the input, besides the occurrences the input already had: exactly
    once when the input has one legacy import and no replacement import. *)
Theorem C3_imports_after_rewrite
    (filepath auth_type : string) (content : text) (w : world) :
  files w filepath = TextFile content ->
  str_in legacy_import content = true ->
  is_mode auth_type ->
  exists out,
    fix_file uni_alnum filepath auth_type w =
    (Returned true,
     {| files := set_file (files w) filepath (TextFile out);
        console := console w ++ [Fixed filepath auth_type] |}) /\
    str_in legacy_import out = false /\
    occ (replacement_import auth_type) out =
    occ legacy_import content + occ (replacement_import auth_type) content /\
    (occ legacy_import content = 1 ->
     str_in (replacement_import auth_type) content = false ->
     occ (replacement_import auth_type) out = 1).
Proof.
  intros Hf Hin Hm. exists (rewrite uni_alnum auth_type content).
  pose proof (occ_replacement_rewrite uni_alnum auth_type content Hm) as Hocc.
  repeat split.
  - now apply fix_file_rewrites.
  - apply str_in_false_occ. now apply occ_legacy_rewrite.
  - exact Hocc.
  - intros H1 H0. apply str_in_false_occ in H0. lia.
Qed.

(** C8, as amended.  When the path is absent or names a readable text file,
    [fix_file] returns a boolean and raises nothing. *)
Theorem C8_returns_unless_unreadable
    (filepath auth_type : string) (w : world) :
  files w filepath <> Directory ->
  exists (b : bool) (w' : world),
    fix_file uni_alnum filepath auth_type w = (Returned b, w').
Proof.
  intros Hf.
  pose proof (fix_file_outcome uni_alnum filepath auth_type w) as Ho.
  destruct (fix_file uni_alnum filepath auth_type w) as [[b|e] w'] eqn:E.
  - now exists b, w'.
  - exfalso. cbn [fst snd] in Ho. inversion Ho as [| Hd | | |]. subst. now apply Hf.
Qed.

(** C9, as amended.  When no listed path names something that exists but
    cannot be opened, the run visits the whole task list: it returns with
    the two counters adding up to the 20 entries of [files_to_fix], having
    printed the banner, one status line per task and the summary. *)
Theorem C9_run_completes (w : world) :
  (forall filepath auth_type,
     In (filepath, auth_type) files_to_fix -> files w filepath <> Directory) ->
  exists fixed_count failed_count w' status,
    main uni_alnum w = (Returned (fixed_count, failed_count), w') /\
    fixed_count + failed_count = length files_to_fix /\
    length files_to_fix = 20 /\
    length status = 20 /\
    console w' =
    console w ++ [Banner] ++ status ++ summary fixed_count failed_count.
Proof.
  intros Hd.
  set (w0 := {| files := files w; console := console w ++ [Banner] |}).
  destruct (process_total uni_alnum files_to_fix w0 0 0 Hd)
    as (fx & fl & w1 & out & Hp & Hsum & Hout & Hlen).
  exists fx, fl.
  assert (Hmain : main uni_alnum w =
            (if 0 <? fl
             then print (SummaryFailed fl) ;;; ret (fx, fl)
             else ret tt ;;; ret (fx, fl))
              {| files := files w1; console := console w1 ++ [SummaryFixed fx] |}).
  { unfold main. unfold bind at 1. unfold print at 1. fold w0.
    unfold bind at 1. rewrite Hp. unfold bind at 1. unfold print at 1.
    cbn [fst snd]. unfold bind at 1.
    destruct (0 <? fl); reflexivity. }
  rewrite Hmain. unfold summary.
  destruct (0 <? fl); eexists; exists out;
    (split; [reflexivity|]); cbn [console];
    rewrite Hout; cbn [w0 console]; rewrite <- !app_assoc;
    repeat split; auto.
Qed.

(** C10, as amended.  In mode "user" or "service", when a readable file has
    the legacy import, no two-space-indented try-block opening, and nowhere
    a match of the fallback pattern (an [export async function] declaration
    with a name of word characters, a parameter list without a closing
    parenthesis inside it, and [) {] at the end of the line), no
    construction statement is inserted: the file is written with the import
    replaced and nothing else changed, "fixed" is printed and [fix_file]
    returns [True]. *)
Theorem C10_no_statement_without_async
    (filepath auth_type : string) (content : text) (w : world) :
  files w filepath = TextFile content ->
  str_in legacy_import content = true ->
  is_mode auth_type ->
  str_in try_open content = false ->
  re_search (func_pattern uni_alnum) content = None ->
  fix_file uni_alnum filepath auth_type w =
  (Returned true,
   {| files := set_file (files w) filepath
                 (TextFile (str_replace legacy_import (replacement_import auth_type)
                              content));
      console := console w ++ [Fixed filepath auth_type] |}).
Proof.
  intros Hf Hin Hm Htry Hdecl.
  rewrite (fix_file_rewrites uni_alnum filepath auth_type content w Hf Hin Hm).
  rewrite rewrite_mode by exact Hm. unfold migrate.
  destruct (re_search first_usage_pattern _); [|reflexivity].
  rewrite scan_back_id; [reflexivity|].
  unfold insert_client.
  rewrite (str_in_replace_neutral auth_type try_open content Hm) by (vm_compute; reflexivity).
  rewrite Htry. apply re_sub1_none.
  destruct (re_search (func_pattern uni_alnum)
              (str_replace legacy_import (replacement_import auth_type) content))
    as [mt|] eqn:E; [exfalso|reflexivity].
  assert (Hs : re_search (func_pattern uni_alnum)
                 (str_replace legacy_import (replacement_import auth_type) content)
               <> None) by (rewrite E; discriminate).
  apply search_matches, (func_match_replaced uni_alnum auth_type content Hm),
    search_matches in Hs.
  now apply Hs.
Qed.

End Claims.

(** * Concrete runs *)

(** ** The claims at concrete files *)

Lemma route_shape :
  try_block_shape route_pre [] route_stmts route_indent route_line route_rest.
Proof.
  unfold try_block_shape.
  refine (conj _ (conj (or_introl _) (conj _ (conj _ (conj _ (conj (or_intror _)
            (conj _ (conj _ (conj _ _)))))))));
    try (vm_compute; reflexivity).
  - now exists (lit "    const id = request.url").
  - discriminate.
Qed.

Lemma C1_witness :
  files (single status_route (TextFile route)) status_route =
  TextFile (try_block_file route_pre [] route_stmts route_indent route_line route_rest) /\
  try_block_shape route_pre [] route_stmts route_indent route_line route_rest /\
  fix_file no_alnum_beyond_ascii status_route "user" (single status_route (TextFile route)) =
  (Returned true,
   {| files := set_file (files (single status_route (TextFile route))) status_route
                 (TextFile (migrated_file "user" route_pre [] route_stmts route_indent
                              route_line route_rest));
      console := console (single status_route (TextFile route))
                 ++ [Fixed status_route "user"] |}) /\
  migrated_file "user" route_pre [] route_stmts route_indent route_line route_rest =
  str_replace legacy_import user_import route_pre
  ++ [NL] ++ [] ++ try_open ++ [NL]
  ++ (lit "    const supabase = await createClient()" ++ [NL])
  ++ try_block_body route_stmts route_indent route_line route_rest /\
  str_in (lit "import { createClient } from '@/utils/supabase/server'")
    (migrated_file "user" route_pre [] route_stmts route_indent route_line route_rest)
  = true.
Proof.
  split; [reflexivity|]. split; [exact route_shape|].
  exact (C1_user_statement_after_try no_alnum_beyond_ascii status_route
           route_pre [] route_stmts route_indent route_line route_rest
           (single status_route (TextFile route)) eq_refl route_shape).
Defined.

(** C1 as stated fails on a route whose try-block opening has a comment
    behind it.  The file has the legacy import, an exported async function
    and a call of [await supabase.from(] inside its try block; the usage
    pattern matches after the declaration and the file contains [  try {],
    but the substitution wants a line break right after the opening and has
    no match: the import is replaced and no statement is inserted. *)
Lemma C1_counterexample :
  str_in legacy_import guarded_try = true /\
  str_in export_async_function guarded_try = true /\
  str_in (lit "await supabase.from(") guarded_try = true /\
  str_in try_open guarded_try = true /\
  re_search try_pattern (str_replace legacy_import user_import guarded_try) = None /\
  fst (fix_file no_alnum_beyond_ascii status_route "user"
         (single status_route (TextFile guarded_try))) = Returned true /\
  files (snd (fix_file no_alnum_beyond_ascii status_route "user"
                (single status_route (TextFile guarded_try)))) status_route =
  TextFile guarded_try_migrated /\
  str_in (lit "const supabase = await createClient()") guarded_try_migrated = false.
Proof.
  repeat split; vm_compute; reflexivity.
Qed.

Lemma handler_shape :
  try_block_shape handler_pre [] route_stmts route_indent route_line route_rest.
Proof.
  unfold try_block_shape.
  refine (conj _ (conj (or_intror _) (conj _ (conj _ (conj _ (conj (or_intror _)
            (conj _ (conj _ (conj _ _)))))))));
    try (vm_compute; reflexivity).
  - now exists (lit "    const id = request.url").
  - discriminate.
Qed.

Lemma C2_witness :
  files (single health_route (TextFile handler)) health_route =
  TextFile (try_block_file handler_pre [] route_stmts route_indent route_line route_rest) /\
  try_block_shape handler_pre [] route_stmts route_indent route_line route_rest /\
  fix_file no_alnum_beyond_ascii health_route "service"
    (single health_route (TextFile handler)) =
  (Returned true,
   {| files := set_file (files (single health_route (TextFile handler))) health_route
                 (TextFile (migrated_file "service" handler_pre [] route_stmts
                              route_indent route_line route_rest));
      console := console (single health_route (TextFile handler))
                 ++ [Fixed health_route "service"] |}) /\
  migrated_file "service" handler_pre [] route_stmts route_indent route_line route_rest =
  str_replace legacy_import service_import handler_pre
  ++ [NL] ++ [] ++ try_open ++ [NL]
  ++ (lit "    const supabase = createServiceRoleClient()" ++ [NL])
  ++ try_block_body route_stmts route_indent route_line route_rest /\
  str_in (lit "import { createServiceRoleClient } from '@/utils/supabase/service-role'")
    (migrated_file "service" handler_pre [] route_stmts route_indent route_line route_rest)
  = true /\
  rewrite no_alnum_beyond_ascii "user"
    (try_block_file handler_pre [] route_stmts route_indent route_line route_rest) =
  str_replace legacy_import user_import handler_pre
  ++ [NL] ++ [] ++ try_open ++ [NL]
  ++ (lit "    const supabase = await createClient()" ++ [NL])
  ++ try_block_body route_stmts route_indent route_line route_rest.
Proof.
  split; [reflexivity|]. split; [exact handler_shape|].
  exact (C2_service_statement_after_try no_alnum_beyond_ascii health_route
           handler_pre [] route_stmts route_indent route_line route_rest
           (single health_route (TextFile handler)) eq_refl handler_shape).
Defined.

(** C2 as stated fails on a route whose handler has a comment above it that
    names the client.  The file has the legacy import and uses the client
    inside a try block within an exported function, but the usage pattern
    matches first at the comment line, where no declaration of an exported
    function comes before: the import is replaced and no statement is
    inserted. *)
Lemma C2_counterexample :
  str_in legacy_import commented_header = true /\
  str_in export_async_function commented_header = true /\
  str_in (lit "await supabase.from(") commented_header = true /\
  str_in try_open commented_header = true /\
  re_search first_usage_pattern
    (str_replace legacy_import service_import commented_header) =
  Some {| m_start := 75; m_end := 110 |} /\
  existsb (fun line => str_in export_async_function line || str_in export_function line)
    (split_nl (firstn 75 (str_replace legacy_import service_import commented_header)))
  = false /\
  fst (fix_file no_alnum_beyond_ascii health_route "service"
         (single health_route (TextFile commented_header))) = Returned true /\
  files (snd (fix_file no_alnum_beyond_ascii health_route "service"
                (single health_route (TextFile commented_header)))) health_route =
  TextFile commented_header_migrated /\
  str_in (lit "const supabase = createServiceRoleClient()") commented_header_migrated
  = false.
Proof.
  repeat split; vm_compute; reflexivity.
Qed.

Lemma C3_witness :
  files (single status_route (TextFile route)) status_route = TextFile route /\
  str_in legacy_import route = true /\
  is_mode "user" /\
  exists out,
    fix_file no_alnum_beyond_ascii status_route "user"
      (single status_route (TextFile route)) =
    (Returned true,
     {| files := set_file (files (single status_route (TextFile route))) status_route
                   (TextFile out);
        console := console (single status_route (TextFile route))
                   ++ [Fixed status_route "user"] |}) /\
    str_in legacy_import out = false /\
    occ (replacement_import "user") out =
    occ legacy_import route + occ (replacement_import "user") route /\
    (occ legacy_import route = 1 ->
     str_in (replacement_import "user") route = false ->
     occ (replacement_import "user") out = 1).
Proof.
  assert (Hin : str_in legacy_import route = true) by (vm_compute; reflexivity).
  split; [reflexivity|]. split; [exact Hin|]. split; [now left|].
  exact (C3_imports_after_rewrite no_alnum_beyond_ascii status_route "user" route
           (single status_route (TextFile route)) eq_refl Hin (or_introl eq_refl)).
Defined.

(** C3 as stated fails on a file that imports the client twice: the usage
    pattern matches, the file is rewritten, and the replacement import is
    there twice. *)
Lemma C3_counterexample :
  str_in legacy_import double_import = true /\
  re_search first_usage_pattern (str_replace legacy_import user_import double_import) =
  Some {| m_start := 147; m_end := 184 |} /\
  fst (fix_file no_alnum_beyond_ascii status_route "user"
         (single status_route (TextFile double_import))) = Returned true /\
  files (snd (fix_file no_alnum_beyond_ascii status_route "user"
                (single status_route (TextFile double_import)))) status_route =
  TextFile double_import_migrated /\
  occ user_import double_import_migrated = 2.
Proof.
  repeat split; vm_compute; reflexivity.
Qed.

Lemma C4_witness :
  files (single status_route (TextFile unused_import)) status_route =
  TextFile unused_import /\
  str_in legacy_import unused_import = true /\
  is_mode "user" /\
  re_search first_usage_pattern
    (str_replace legacy_import (replacement_import "user") unused_import) = None /\
  fix_file no_alnum_beyond_ascii status_route "user"
    (single status_route (TextFile unused_import)) =
  (Returned true,
   {| files := set_file (files (single status_route (TextFile unused_import)))
                 status_route
                 (TextFile (str_replace legacy_import (replacement_import "user")
                              unused_import));
      console := console (single status_route (TextFile unused_import))
                 ++ [Fixed status_route "user"] |}).
Proof.
  assert (Hin : str_in legacy_import unused_import = true) by (vm_compute; reflexivity).
  assert (Hno : re_search first_usage_pattern
                  (str_replace legacy_import (replacement_import "user") unused_import)
                = None) by (vm_compute; reflexivity).
  split; [reflexivity|]. split; [exact Hin|]. split; [now left|]. split; [exact Hno|].
  exact (C4_import_replaced_without_usage no_alnum_beyond_ascii status_route "user"
           unused_import (single status_route (TextFile unused_import))
           eq_refl Hin (or_introl eq_refl) Hno).
Defined.

(** C4 as stated fails on a module that imports the client and never uses
    it: the usage pattern matches neither before nor after the import is
    replaced, and still the file is written, reported fixed and counted as a
    success. *)
Lemma C4_counterexample :
  str_in legacy_import unused_import = true /\
  re_search first_usage_pattern unused_import = None /\
  re_search first_usage_pattern (str_replace legacy_import user_import unused_import)
  = None /\
  fst (fix_file no_alnum_beyond_ascii status_route "user"
         (single status_route (TextFile unused_import))) = Returned true /\
  console (snd (fix_file no_alnum_beyond_ascii status_route "user"
                  (single status_route (TextFile unused_import)))) =
  [Fixed status_route "user"] /\
  files (snd (fix_file no_alnum_beyond_ascii status_route "user"
                (single status_route (TextFile unused_import)))) status_route =
  TextFile unused_import_migrated.
Proof.
  repeat split; vm_compute; reflexivity.
Qed.

Lemma C5_witness :
  files (single status_route (TextFile migrated_before)) status_route =
  TextFile migrated_before /\
  str_in legacy_import migrated_before = false /\
  fix_file no_alnum_beyond_ascii status_route "user"
    (single status_route (TextFile migrated_before)) =
  (Returned true,
   {| files := files (single status_route (TextFile migrated_before));
      console := console (single status_route (TextFile migrated_before))
                 ++ [AlreadyFixed status_route] |}).
Proof.
  assert (Hin : str_in legacy_import migrated_before = false) by (vm_compute; reflexivity).
  split; [reflexivity|]. split; [exact Hin|].
  exact (C5_no_legacy_import_unchanged no_alnum_beyond_ascii status_route "user"
           migrated_before (single status_route (TextFile migrated_before)) eq_refl Hin).
Defined.

Lemma C6_witness :
  fix_file no_alnum_beyond_ascii status_route "user"
    (single status_route (TextFile route)) = (Returned true, route_after_user) /\
  files route_after_user status_route <>
  files (single status_route (TextFile route)) status_route /\
  fix_file no_alnum_beyond_ascii status_route "user" route_after_user =
  (Returned true,
   {| files := files route_after_user;
      console := console route_after_user ++ [AlreadyFixed status_route] |}).
Proof.
  assert (H1 : fix_file no_alnum_beyond_ascii status_route "user"
                 (single status_route (TextFile route)) = (Returned true, route_after_user))
    by (vm_compute; reflexivity).
  assert (H2 : files route_after_user status_route <>
               files (single status_route (TextFile route)) status_route)
    by (vm_compute; discriminate).
  split; [exact H1|]. split; [exact H2|].
  exact (C6_second_run_already_fixed no_alnum_beyond_ascii status_route "user" "user"
           (single status_route (TextFile route)) route_after_user true H1 H2).
Defined.


Lemma C8_witness :
  files empty_disk status_route <> Directory /\
  exists (b : bool) (w' : world),
    fix_file no_alnum_beyond_ascii status_route "user" empty_disk = (Returned b, w').
Proof.
  assert (H : files empty_disk status_route <> Directory) by discriminate.
  split; [exact H|].
  exact (C8_returns_unless_unreadable no_alnum_beyond_ascii status_route "user"
           empty_disk H).
Defined.

(** C8 as stated fails when the path names a directory: [os.path.exists]
    holds, [open] raises, and nothing in [fix_file] catches it. *)
Lemma C8_counterexample :
  fst (fix_file no_alnum_beyond_ascii health_route "service"
         (single health_route Directory)) = Raised (IsADirectoryError health_route) /\
  console (snd (fix_file no_alnum_beyond_ascii health_route "service"
                  (single health_route Directory))) = [].
Proof.
  split; reflexivity.
Qed.

Lemma C9_witness :
  (forall filepath auth_type,
     In (filepath, auth_type) files_to_fix -> files empty_disk filepath <> Directory) /\
  exists fixed_count failed_count w' status,
    main no_alnum_beyond_ascii empty_disk = (Returned (fixed_count, failed_count), w') /\
    fixed_count + failed_count = length files_to_fix /\
    length files_to_fix = 20 /\
    length status = 20 /\
    console w' =
    console empty_disk ++ [Banner] ++ status ++ summary fixed_count failed_count.
Proof.
  assert (H : forall filepath auth_type,
             In (filepath, auth_type) files_to_fix ->
             files empty_disk filepath <> Directory)
    by (intros filepath auth_type _; discriminate).
  split; [exact H|].
  exact (C9_run_completes no_alnum_beyond_ascii empty_disk H).
Defined.

(** C9 as stated fails when a listed path names a directory: the run ends
    in the exception at the second task, after the banner and one status
    line; the other tasks are not visited and no summary is printed. *)
Lemma C9_counterexample :
  fst (main no_alnum_beyond_ascii (single health_route Directory)) =
  Raised (IsADirectoryError health_route) /\
  console (snd (main no_alnum_beyond_ascii (single health_route Directory))) =
  [Banner; FileNotFound "app/api/debug/env-check/route.ts"].
Proof.
  split; vm_compute; reflexivity.
Qed.

Lemma C10_witness :
  files (single status_route (TextFile annotated_exports)) status_route =
  TextFile annotated_exports /\
  str_in legacy_import annotated_exports = true /\
  is_mode "user" /\
  str_in try_open annotated_exports = false /\
  re_search (func_pattern no_alnum_beyond_ascii) annotated_exports = None /\
  fix_file no_alnum_beyond_ascii status_route "user"
    (single status_route (TextFile annotated_exports)) =
  (Returned true,
   {| files := set_file (files (single status_route (TextFile annotated_exports)))
                 status_route
                 (TextFile (str_replace legacy_import (replacement_import "user")
                              annotated_exports));
      console := console (single status_route (TextFile annotated_exports))
                 ++ [Fixed status_route "user"] |}).
Proof.
  assert (Hin : str_in legacy_import annotated_exports = true)
    by (vm_compute; reflexivity).
  assert (Htry : str_in try_open annotated_exports = false)
    by (vm_compute; reflexivity).
  assert (Hdecl : re_search (func_pattern no_alnum_beyond_ascii) annotated_exports = None)
    by (vm_compute; reflexivity).
  split; [reflexivity|]. split; [exact Hin|]. split; [now left|].
  split; [exact Htry|]. split; [exact Hdecl|].
  exact (C10_no_statement_without_async no_alnum_beyond_ascii status_route "user"
           annotated_exports (single status_route (TextFile annotated_exports))
           eq_refl Hin (or_introl eq_refl) Htry Hdecl).
Defined.

(** C10 as stated fails on a module whose use of the client sits in a plain
    exported function while an async exported function stands elsewhere:
    the file has no two-space-indented try-block opening, the usage pattern
    matches and the declaration nearest before the match is the plain one,
    and yet the fallback substitution puts the statement into the async
    function. *)
Lemma C10_counterexample :
  str_in legacy_import mixed_exports = true /\
  str_in try_open mixed_exports = false /\
  re_search first_usage_pattern (str_replace legacy_import user_import mixed_exports) =
  Some {| m_start := 117; m_end := 136 |} /\
  hd [] (rev (split_nl
                (firstn 117 (str_replace legacy_import user_import mixed_exports)))) =
  lit "export function b() {" /\
  str_in export_async_function (lit "export function b() {") = false /\
  fst (fix_file no_alnum_beyond_ascii status_route "user"
         (single status_route (TextFile mixed_exports))) = Returned true /\
  files (snd (fix_file no_alnum_beyond_ascii status_route "user"
                (single status_route (TextFile mixed_exports)))) status_route =
  TextFile mixed_exports_migrated /\
  str_in (lit "const supabase = await createClient()") mixed_exports_migrated = true.
Proof.
  repeat split; vm_compute; reflexivity.
Qed.

(** * Further properties of the script *)

(** ** One call of [fix_file] *)

Lemma re_sub1_cases (p : regex) (tail s : text) :
  ends_nl p ->
  re_sub1 p tail s = s \/
  exists x y, s = x ++ [NL] ++ y /\ re_sub1 p tail s = x ++ [NL] ++ tail ++ y.
Proof.
  intros Hp. destruct (re_search p s) as [mt|] eqn:E.
  - right. destruct (re_sub1_some p tail s mt E) as (a & m & r & -> & Hm & _ & ->).
    destruct (Hp m Hm) as [m0 ->].
    exists (a ++ m0), r. rewrite <- !app_assoc. now split.
  - left. now apply re_sub1_none.
Qed.

Section Further.

Variable uni_alnum : char -> bool.

Lemma scan_back_cases (visited : list text) (ts fs content : text) :
  scan_back uni_alnum visited ts fs content = content \/
  scan_back uni_alnum visited ts fs content = insert_client uni_alnum ts fs content.
Proof.
  induction visited as [|line earlier IH]; simpl; [now left|].
  destruct (str_in export_async_function line || str_in export_function line);
    [now right|exact IH].
Qed.

(** X1. [fix_file] returns [False] in two cases only: the file is missing,
    or it has the legacy import and the mode is neither "user" nor
    "service".  In the two modes of the task list, a file that exists is
    never reported as failed. *)
Theorem X1_failure_cases (filepath auth_type : string) (w : world) :
  (exists w', fix_file uni_alnum filepath auth_type w = (Returned false, w')) <->
  (files w filepath = Missing \/
   exists content,
     files w filepath = TextFile content /\
     str_in legacy_import content = true /\ ~ is_mode auth_type).
Proof.
  pose proof (fix_file_outcome uni_alnum filepath auth_type w) as Ho.
  split.
  - intros (w' & E). rewrite E in Ho. cbn [fst snd] in Ho.
    inversion Ho as [Hf | | | | c Hf Hin Hm]; subst.
    + now left.
    + right. now exists c.
  - intros [Hf | (c & Hf & Hin & Hm)].
    + eexists. now apply fix_file_missing.
    + eexists. now apply fix_file_other with c.
Qed.

(** X2. A call of [fix_file] changes at most the file of its task, and that
    one only from a text with the legacy import, in one of the two modes, to
    its rewritten text: no other path is touched, no file is created and
    none is removed. *)
Theorem X2_only_the_task_file_changes (filepath auth_type q : string) (w : world) :
  files (snd (fix_file uni_alnum filepath auth_type w)) q = files w q \/
  (q = filepath /\ is_mode auth_type /\
   exists content,
     files w filepath = TextFile content /\
     str_in legacy_import content = true /\
     files (snd (fix_file uni_alnum filepath auth_type w)) q =
     TextFile (rewrite uni_alnum auth_type content)).
Proof.
  pose proof (fix_file_outcome uni_alnum filepath auth_type w) as Ho.
  destruct (fix_file uni_alnum filepath auth_type w) as [res w'].
  cbn [fst snd] in *.
  inversion Ho as [Hf | Hf | c Hf Hin | c Hf Hin Hm | c Hf Hin Hm]; subst;
    cbn [files]; try (now left).
  unfold set_file. destruct (String.eqb_spec q filepath) as [->|Hne]; [|now left].
  right. repeat split; auto. now exists c.
Qed.

(** X3. In either mode, the text [fix_file] writes is the input with its
    legacy imports replaced and at most one statement added: the mode's
    try-block statement or its function statement, as a new line right
    after a line break. *)
Theorem X3_at_most_one_statement (auth_type : string) (content : text) :
  is_mode auth_type ->
  rewrite uni_alnum auth_type content =
  str_replace legacy_import (replacement_import auth_type) content \/
  exists x y stmt,
    str_replace legacy_import (replacement_import auth_type) content = x ++ [NL] ++ y /\
    rewrite uni_alnum auth_type content = x ++ [NL] ++ stmt ++ y /\
    (stmt = try_stmt_of auth_type \/ stmt = func_stmt_of auth_type).
Proof.
  intros Hm. rewrite rewrite_mode by exact Hm. unfold migrate.
  remember (str_replace legacy_import (replacement_import auth_type) content) as c'.
  destruct (re_search first_usage_pattern c'); [|now left].
  destruct (scan_back_cases (rev (split_nl (firstn (m_start r) c')))
              (try_stmt_of auth_type) (func_stmt_of auth_type) c') as [-> | ->];
    [now left|].
  unfold insert_client. destruct (str_in try_open c').
  - destruct (re_sub1_cases try_pattern (try_stmt_of auth_type) c' try_pattern_ends_nl)
      as [-> | (x & y & Hc & ->)]; [now left|].
    right. exists x, y, (try_stmt_of auth_type). auto.
  - destruct (re_sub1_cases (func_pattern uni_alnum) (func_stmt_of auth_type) c'
                (func_pattern_ends_nl uni_alnum))
      as [-> | (x & y & Hc & ->)]; [now left|].
    right. exists x, y, (func_stmt_of auth_type). auto.
Qed.

End Further.

(** ** The whole run, task by task *)

Lemma files_to_fix_modes : modes_known files_to_fix.
Proof.
  assert (H : forallb (fun t => String.eqb (snd t) "user" || String.eqb (snd t) "service")
                files_to_fix = true) by reflexivity.
  rewrite forallb_forall in H. intros filepath auth_type Hin.
  specialize (H _ Hin). cbn [snd] in H. apply orb_true_iff in H as [H|H];
    apply String.eqb_eq in H; [now left|now right].
Qed.

Section WholeRun.

Variable uni_alnum : char -> bool.

(** What one task of a known mode does, whatever the file. *)
Lemma fix_file_task (filepath auth_type : string) (w : world) :
  is_mode auth_type -> files w filepath <> Directory ->
  exists w' r,
    fix_file uni_alnum filepath auth_type w = (Returned (exists_on w filepath), w') /\
    console w' = console w ++ [r] /\
    report_path r = Some filepath /\
    (forall q, exists_on w' q = exists_on w q) /\
    (forall q, files w q <> Directory -> files w' q <> Directory) /\
    (forall q, migrated_at w q -> migrated_at w' q) /\
    migrated_at w' filepath.
Proof.
  intros Hm Hd. unfold exists_on at 1.
  destruct (files w filepath) as [| |content] eqn:Hf; [|contradiction|].
  - rewrite fix_file_missing by exact Hf.
    eexists; eexists.
    refine (conj eq_refl (conj eq_refl (conj eq_refl (conj _ (conj _ (conj _ _))))));
      unfold migrated_at, exists_on; cbn [files]; auto.
    intros c Hc. rewrite Hf in Hc. discriminate.
  - destruct (str_in legacy_import content) eqn:Hin.
    + rewrite (fix_file_rewrites uni_alnum filepath auth_type content w Hf Hin Hm).
      eexists; eexists.
      refine (conj eq_refl (conj eq_refl (conj eq_refl (conj _ (conj _ (conj _ _))))));
        unfold migrated_at, exists_on; cbn [files].
      * intros q. unfold set_file.
        destruct (String.eqb_spec q filepath) as [->|_]; [now rewrite Hf|reflexivity].
      * intros q Hq. unfold set_file. now destruct (String.eqb q filepath).
      * intros q Hq c. unfold set_file.
        destruct (String.eqb_spec q filepath) as [->|_]; [|apply Hq].
        intros [= <-]. apply str_in_false_occ. now apply occ_legacy_rewrite.
      * intros c. rewrite set_file_same. intros [= <-].
        apply str_in_false_occ. now apply occ_legacy_rewrite.
    + rewrite (fix_file_clean uni_alnum filepath auth_type content w Hf Hin).
      eexists; eexists.
      refine (conj eq_refl (conj eq_refl (conj eq_refl (conj _ (conj _ (conj _ _))))));
        unfold migrated_at, exists_on; cbn [files]; auto.
      intros c Hc. rewrite Hf in Hc. now injection Hc as <-.
Qed.

Lemma process_accounts (tasks : list (string * string)) :
  forall (w : world) (fixed_count failed_count : nat),
    modes_known tasks -> openable tasks w ->
    exists w' status,
      process uni_alnum tasks fixed_count failed_count w =
      (Returned
         (fixed_count + length (filter (fun t => exists_on w (fst t)) tasks),
          failed_count + length (filter (fun t => negb (exists_on w (fst t))) tasks)),
       w') /\
      console w' = console w ++ status /\
      map report_path status = map (fun t => Some (fst t)) tasks /\
      (forall q, exists_on w' q = exists_on w q) /\
      (forall q, files w q <> Directory -> files w' q <> Directory) /\
      (forall q, migrated_at w q -> migrated_at w' q) /\
      (forall filepath auth_type, In (filepath, auth_type) tasks -> migrated_at w' filepath).
Proof.
  induction tasks as [|[filepath auth_type] rest IH]; intros w fx fl Hmodes Hopen.
  - exists w, []. cbn. rewrite app_nil_r, !Nat.add_0_r. repeat split; auto. easy.
  - destruct (fix_file_task filepath auth_type w) as (w1 & r & Hrun & Hc & Hr & Hex & Hdir & Hmig & Hdone).
    { apply (Hmodes filepath auth_type). now left. }
    { apply (Hopen filepath auth_type). now left. }
    assert (Hmodes1 : modes_known rest).
    { intros p a Hin. apply (Hmodes p a). now right. }
    assert (Hopen1 : openable rest w1).
    { intros p a Hin. apply Hdir, (Hopen p a). now right. }
    assert (Hfilter : forall f : bool -> bool,
              filter (fun t => f (exists_on w1 (fst t))) rest =
              filter (fun t => f (exists_on w (fst t))) rest).
    { intros f. apply filter_ext. intros t. now rewrite Hex. }
    cbn [process]. unfold bind at 1. rewrite Hrun.
    cbn [filter fst]. destruct (exists_on w filepath); cbn [negb length].
    + destruct (IH w1 (S fx) fl Hmodes1 Hopen1)
        as (w' & status & Hp & Hout & Hmap & Hex' & Hdir' & Hmig' & Hdone').
      exists w', (r :: status). rewrite Hp, Hout, Hc, <- app_assoc.
      rewrite (Hfilter (fun b => b)), (Hfilter negb).
      repeat split; auto.
      * do 3 f_equal; lia.
      * cbn [map]. now rewrite Hr, Hmap.
      * intros q. now rewrite Hex'.
      * intros p a [[= <- <-] | Hin]; [now apply Hmig'|now apply (Hdone' p a)].
    + destruct (IH w1 fx (S fl) Hmodes1 Hopen1)
        as (w' & status & Hp & Hout & Hmap & Hex' & Hdir' & Hmig' & Hdone').
      exists w', (r :: status). rewrite Hp, Hout, Hc, <- app_assoc.
      rewrite (Hfilter (fun b => b)), (Hfilter negb).
      repeat split; auto.
      * do 3 f_equal; lia.
      * cbn [map]. now rewrite Hr, Hmap.
      * intros q. now rewrite Hex'.
      * intros p a [[= <- <-] | Hin]; [now apply Hmig'|now apply (Hdone' p a)].
Qed.

(** The top level around the loop. *)
Lemma main_process (w w1 : world) (fixed_count failed_count : nat) :
  process uni_alnum files_to_fix 0 0
    {| files := files w; console := console w ++ [Banner] |} =
  (Returned (fixed_count, failed_count), w1) ->
  exists w',
    main uni_alnum w = (Returned (fixed_count, failed_count), w') /\
    files w' = files w1 /\
    console w' = console w1 ++ summary fixed_count failed_count.
Proof.
  intros Hp. unfold main. unfold bind at 1. unfold print at 1.
  unfold bind at 1. rewrite Hp. unfold bind at 1. unfold print at 1.
  cbn [fst snd]. unfold bind at 1. unfold summary.
  destruct (0 <? failed_count); eexists; (split; [reflexivity|]);
    cbn [files console]; rewrite <- ?app_assoc; split; reflexivity.
Qed.

End WholeRun.

Section RunProperties.

Variable uni_alnum : char -> bool.

(** A task whose file needs nothing leaves the disk alone. *)
Lemma fix_file_settled (filepath auth_type : string) (w : world) :
  files w filepath <> Directory -> migrated_at w filepath ->
  exists r,
    fix_file uni_alnum filepath auth_type w =
    (Returned (exists_on w filepath),
     {| files := files w; console := console w ++ [r] |}) /\
    (r = AlreadyFixed filepath \/ r = FileNotFound filepath).
Proof.
  intros Hd Hmig. unfold exists_on.
  destruct (files w filepath) as [| |content] eqn:Hf; [|contradiction|].
  - exists (FileNotFound filepath). split; [now apply fix_file_missing|now right].
  - exists (AlreadyFixed filepath). split; [|now left].
    apply fix_file_clean with content; [exact Hf|]. now apply Hmig.
Qed.

Lemma process_settled (tasks : list (string * string)) :
  forall (w : world) (fixed_count failed_count : nat),
    (forall filepath auth_type, In (filepath, auth_type) tasks ->
       files w filepath <> Directory /\ migrated_at w filepath) ->
    exists w',
      process uni_alnum tasks fixed_count failed_count w =
      (Returned
         (fixed_count + length (filter (fun t => exists_on w (fst t)) tasks),
          failed_count + length (filter (fun t => negb (exists_on w (fst t))) tasks)),
       w') /\
      files w' = files w.
Proof.
  induction tasks as [|[filepath auth_type] rest IH]; intros w fx fl H.
  - exists w. cbn. now rewrite !Nat.add_0_r.
  - destruct (H filepath auth_type (or_introl eq_refl)) as [Hd Hmig].
    destruct (fix_file_settled filepath auth_type w Hd Hmig) as (r & Hrun & _).
    cbn [process]. unfold bind at 1. rewrite Hrun.
    set (w1 := {| files := files w; console := console w ++ [r] |}).
    assert (H1 : forall p a, In (p, a) rest ->
                   files w1 p <> Directory /\ migrated_at w1 p).
    { intros p a Hin. apply (H p a). now right. }
    cbn [filter fst]. destruct (exists_on w filepath); cbn [negb length].
    + destruct (IH w1 (S fx) fl H1) as (w' & Hp & Hfiles).
      unfold exists_on in Hp |- *. cbn [w1 files] in Hp.
      exists w'. rewrite Hp. split; [|exact Hfiles]. do 3 f_equal; lia.
    + destruct (IH w1 fx (S fl) H1) as (w' & Hp & Hfiles).
      unfold exists_on in Hp |- *. cbn [w1 files] in Hp.
      exists w'. rewrite Hp. split; [|exact Hfiles]. do 3 f_equal; lia.
Qed.

(** X4. When every listed path can be opened or is missing, the run counts
    as fixed exactly the listed files that exist at the start, whatever was
    or was not changed in them, and as failed exactly the missing ones. *)
Theorem X4_tallies_count_existing_files (w : world) :
  openable files_to_fix w ->
  exists w',
    main uni_alnum w =
    (Returned
       (length (filter (fun t => exists_on w (fst t)) files_to_fix),
        length (filter (fun t => negb (exists_on w (fst t))) files_to_fix)),
     w').
Proof.
  intros Hopen.
  destruct (process_accounts uni_alnum files_to_fix
              {| files := files w; console := console w ++ [Banner] |} 0 0
              files_to_fix_modes Hopen) as (w1 & status & Hp & _).
  rewrite !Nat.add_0_l in Hp.
  destruct (main_process uni_alnum w w1 _ _ Hp) as (w' & Hmain & _).
  exists w'. exact Hmain.
Qed.

(** X5. In such a run the console gets, between the banner and the summary,
    one status line per task, in the order of the task list, each about its
    task's path. *)
Theorem X5_status_lines_follow_the_task_list (w : world) :
  openable files_to_fix w ->
  exists counts w' status,
    main uni_alnum w = (Returned counts, w') /\
    console w' =
    console w ++ [Banner] ++ status ++ summary (fst counts) (snd counts) /\
    map report_path status = map (fun t => Some (fst t)) files_to_fix.
Proof.
  intros Hopen.
  destruct (process_accounts uni_alnum files_to_fix
              {| files := files w; console := console w ++ [Banner] |} 0 0
              files_to_fix_modes Hopen) as (w1 & status & Hp & Hout & Hmap & _).
  destruct (main_process uni_alnum w w1 _ _ Hp) as (w' & Hmain & _ & Hcons).
  eexists; exists w', status. split; [exact Hmain|]. split; [|exact Hmap].
  rewrite Hcons, Hout. cbn [console fst snd]. now rewrite <- !app_assoc.
Qed.

(** X6. After such a run no listed file contains the legacy import. *)
Theorem X6_no_legacy_import_after_the_run
    (w : world) (filepath auth_type : string) :
  openable files_to_fix w ->
  In (filepath, auth_type) files_to_fix ->
  migrated_at (snd (main uni_alnum w)) filepath.
Proof.
  intros Hopen Hin.
  destruct (process_accounts uni_alnum files_to_fix
              {| files := files w; console := console w ++ [Banner] |} 0 0
              files_to_fix_modes Hopen)
    as (w1 & status & Hp & _ & _ & _ & _ & _ & Hdone).
  destruct (main_process uni_alnum w w1 _ _ Hp) as (w' & Hmain & Hfiles & _).
  rewrite Hmain. cbn [snd]. unfold migrated_at. rewrite Hfiles.
  exact (Hdone filepath auth_type Hin).
Qed.

(** X7. A second run over the disk a first run has left finds nothing to
    do: it returns the same two counts and leaves every file as it is. *)
Theorem X7_second_run_changes_no_file (w : world) :
  openable files_to_fix w ->
  exists counts w1 w2,
    main uni_alnum w = (Returned counts, w1) /\
    main uni_alnum w1 = (Returned counts, w2) /\
    files w2 = files w1.
Proof.
  intros Hopen.
  destruct (process_accounts uni_alnum files_to_fix
              {| files := files w; console := console w ++ [Banner] |} 0 0
              files_to_fix_modes Hopen)
    as (w1 & status & Hp & _ & _ & Hex & Hdir & _ & Hdone).
  destruct (main_process uni_alnum w w1 _ _ Hp) as (w' & Hmain & Hfiles & _).
  set (w0' := {| files := files w'; console := console w' ++ [Banner] |}).
  assert (Hset : forall p a, In (p, a) files_to_fix ->
                   files w0' p <> Directory /\ migrated_at w0' p).
  { intros p a Hin. unfold migrated_at. cbn [w0' files]. rewrite Hfiles. split.
    - apply Hdir. cbn [files]. exact (Hopen p a Hin).
    - exact (Hdone p a Hin). }
  destruct (process_settled files_to_fix w0' 0 0 Hset) as (w2 & Hp2 & Hfiles2).
  assert (Hsame : forall f : bool -> bool,
            filter (fun t => f (exists_on w0' (fst t))) files_to_fix =
            filter (fun t => f (exists_on w (fst t))) files_to_fix).
  { intros f. apply filter_ext. intros t. unfold exists_on at 1.
    cbn [w0' files]. rewrite Hfiles. fold (exists_on w1 (fst t)).
    rewrite Hex. reflexivity. }
  rewrite (Hsame (fun b => b)), (Hsame negb) in Hp2.
  destruct (main_process uni_alnum w' w2 _ _ Hp2) as (w'' & Hmain2 & Hfiles'' & _).
  eexists; exists w', w''. split; [exact Hmain|]. split; [exact Hmain2|].
  rewrite Hfiles''. exact Hfiles2.
Qed.

End RunProperties.

(** ** Files without an exported function declaration *)

Lemma split_nl_first_prefix (s l : text) (ls : list text) :
  split_nl s = l :: ls -> exists r, s = l ++ r.
Proof.
  revert l ls; induction s as [|c s IH]; intros l ls E.
  - injection E as <- _. now exists [].
  - simpl in E. destruct (N.eqb c NL).
    + injection E as <- _. now exists (c :: s).
    + destruct (split_nl s) as [|l0 ls0] eqn:E0; [now apply split_nl_nonempty in E0|].
      injection E as <- _. destruct (IH l0 ls0 eq_refl) as [r ->]. now exists r.
Qed.

(** What occurs in a line occurs in the text. *)
Lemma split_nl_line_in (n s line : text) :
  In line (split_nl s) -> str_in n line = true -> str_in n s = true.
Proof.
  revert line; induction s as [|c s IH]; intros line Hin Hn.
  - destruct Hin as [<- | []]. exact Hn.
  - assert (Htail : str_in n s = true -> str_in n (c :: s) = true).
    { intros H. simpl. rewrite H. apply orb_true_r. }
    simpl in Hin. destruct (N.eqb c NL).
    + destruct Hin as [<- | Hin]; [|now apply Htail, (IH line)].
      destruct n; [|discriminate]. reflexivity.
    + destruct (split_nl s) as [|l0 ls0] eqn:E0; [now apply split_nl_nonempty in E0|].
      destruct Hin as [<- | Hin].
      * destruct (split_nl_first_prefix s l0 ls0 E0) as [r ->].
        change (c :: l0 ++ r) with ((c :: l0) ++ r). now apply str_in_weaken.
      * apply Htail, (IH line); [now right|exact Hn].
Qed.

Section NoDeclaration.

Variable uni_alnum : char -> bool.

Lemma scan_back_none (visited : list text) (ts fs content : text) :
  existsb (fun line => str_in export_async_function line || str_in export_function line)
    visited = false ->
  scan_back uni_alnum visited ts fs content = content.
Proof.
  induction visited as [|line earlier IH]; simpl; [reflexivity|].
  destruct (str_in export_async_function line || str_in export_function line);
    [discriminate|exact IH].
Qed.

(** X8. In either mode, a readable file that has the legacy import but
    neither [export function] nor [export async function] anywhere (its
    handlers are declared in another way) gets no construction statement,
    with or without a try block and whatever use of the client it makes:
    it is written with the import replaced and nothing else changed, and
    reported as fixed. *)
Theorem X8_no_declaration_no_statement
    (filepath auth_type : string) (content : text) (w : world) :
  files w filepath = TextFile content ->
  str_in legacy_import content = true ->
  is_mode auth_type ->
  str_in export_function content = false ->
  str_in export_async_function content = false ->
  fix_file uni_alnum filepath auth_type w =
  (Returned true,
   {| files := set_file (files w) filepath
                 (TextFile (str_replace legacy_import (replacement_import auth_type)
                              content));
      console := console w ++ [Fixed filepath auth_type] |}).
Proof.
  intros Hf Hin Hm Hfun Hasync.
  rewrite (fix_file_rewrites uni_alnum filepath auth_type content w Hf Hin Hm).
  rewrite rewrite_mode by exact Hm. unfold migrate.
  remember (str_replace legacy_import (replacement_import auth_type) content) as c' eqn:Hc'.
  assert (Hfun' : str_in export_function c' = false).
  { rewrite Hc', str_in_replace_neutral; [exact Hfun|exact Hm|vm_compute; reflexivity]. }
  assert (Hasync' : str_in export_async_function c' = false).
  { rewrite Hc', str_in_replace_neutral; [exact Hasync|exact Hm|vm_compute; reflexivity]. }
  destruct (re_search first_usage_pattern c') as [mt|]; [|reflexivity].
  rewrite scan_back_none; [reflexivity|].
  destruct (existsb _ (rev (split_nl (firstn (m_start mt) c')))) eqn:E; [|reflexivity].
  exfalso. apply existsb_exists in E as (line & Hline & Hor).
  apply in_rev in Hline.
  assert (Hpre : forall n, str_in n line = true -> str_in n c' = true).
  { intros n Hn. rewrite <- (firstn_skipn (m_start mt) c').
    apply str_in_weaken. now apply (split_nl_line_in n _ line). }
  apply orb_true_iff in Hor as [Hn | Hn]; apply Hpre in Hn; congruence.
Qed.

End NoDeclaration.

(** ** The fallback substitution *)

(** A text that uses the client nowhere and is not blank, followed by a
    line break, does not begin a usage line. *)
Lemma no_usage_line_gen (z R : text) :
  str_in (lit "supabase.") z = false -> forallb is_space z = false ->
  usage_line (z ++ NL :: R) = false.
Proof.
  intros Hz Hsp. unfold usage_line. induction z as [|c z IH]; [discriminate|].
  change ((c :: z) ++ NL :: R) with (c :: (z ++ NL :: R)).
  cbn [drop_while]. cbn [forallb] in Hsp. destruct (is_space c).
  - apply IH; [now apply str_in_cons_false in Hz|exact Hsp].
  - change (c :: z ++ NL :: R) with ((c :: z) ++ NL :: R).
    rewrite take_while_stop by reflexivity.
    destruct (str_in _ (take_while not_newline (c :: z))) eqn:E; [|reflexivity].
    apply str_in_take_while in E. congruence.
Qed.

Lemma forallb_last_false (f : char -> bool) (z : text) (c : char) :
  f c = false -> forallb f (z ++ [c]) = false.
Proof.
  intros Hc. rewrite forallb_app. simpl. rewrite Hc. apply andb_false_r.
Qed.

(** Every match of the usage pattern starts after a declaration line that
    does not use the client and has none before it. *)
Lemma usage_after_decl (D body a0 m r0 : text) :
  str_in (lit "supabase.") (D ++ lit "{") = false ->
  regex_lang first_usage_pattern m ->
  a0 ++ m ++ r0 = (D ++ lit "{") ++ [NL] ++ body ->
  exists a1, a0 = (D ++ lit "{") ++ a1.
Proof.
  intros HD Hm E.
  apply app_eq_app in E as [l [[-> _] | [Hl E]]]; [now exists l|].
  destruct l as [|c z]; [exists []; rewrite app_nil_r in *; now symmetry|]. exfalso.
  destruct (usage_match_line m r0 Hm) as (s & Hs & Hline).
  rewrite E in Hs. change ((c :: z) ++ [NL] ++ body) with (c :: (z ++ NL :: body)) in Hs.
  injection Hs as -> <-.
  assert (Hz : str_in (lit "supabase.") z = false).
  { destruct (str_in (lit "supabase.") z) eqn:Hz; [|reflexivity].
    rewrite <- HD, Hl. symmetry. apply str_in_app_r.
    change (str_in (lit "supabase.") (NL :: z))
      with (starts_with (lit "supabase.") (NL :: z) || str_in (lit "supabase.") z).
    rewrite Hz. apply orb_true_r. }
  rewrite (no_usage_line_gen z body Hz) in Hline; [discriminate|].
  (* the part of the declaration line after the line break ends with its brace *)
  destruct (suffix_ends a0 (NL :: z) D 123%N) as (y & Hy); [now symmetry|easy|].
  destruct y as [|c' y].
  - discriminate.
  - injection Hy as _ ->. now apply forallb_last_false.
Qed.

Section Fallback.

Variable uni_alnum : char -> bool.

(** The substitution puts the statement right after the opening line of
    the first async exported function. *)
Lemma func_sub_shape (A name args body fs : text) :
  str_in (lit "export async function ") A = false ->
  name <> [] -> forallb (is_word uni_alnum) name = true ->
  forallb not_rparen args = true ->
  re_sub1 (func_pattern uni_alnum) fs
    (A ++ lit "export async function " ++ name ++ lit "(" ++ args ++ lit ") {"
       ++ [NL] ++ body) =
  A ++ lit "export async function " ++ name ++ lit "(" ++ args ++ lit ") {"
    ++ [NL] ++ fs ++ body.
Proof.
  intros HA Hne Hname Hargs.
  remember (lit "export async function ") as L eqn:HL.
  assert (Hfree : straddle_free L L = true) by (rewrite HL; vm_compute; reflexivity).
  assert (Hlang : regex_lang (func_pattern uni_alnum)
                    (L ++ name ++ lit "(" ++ args ++ lit ") {" ++ [NL])).
  { apply func_pattern_lang_full. exists name, args. rewrite HL. auto. }
  destruct (search_from_complete (func_pattern uni_alnum) A
              ((L ++ name ++ lit "(" ++ args ++ lit ") {" ++ [NL]) ++ body) 0
              (match_here_complete _ _ body Hlang)) as (mt & Hs & Hle).
  rewrite <- !app_assoc in Hs.
  destruct (re_sub1_some (func_pattern uni_alnum) fs _ mt Hs)
    as (a0 & m & r0 & E & Hm & Hst & ->).
  apply func_pattern_lang_full in Hm as (name' & args' & -> & _ & Hname' & Hargs').
  rewrite <- HL in *.
  (* the match starts where the declaration does *)
  assert (Ha0 : a0 = A).
  { rewrite <- !app_assoc in E.
    apply app_eq_app in E as [l [[H1 H2] | [H1 H2]]].
    - destruct l as [|c l]; [now rewrite app_nil_r in H1|]. exfalso.
      pose proof (straddle_free_before L (c :: l) L
                    (name ++ lit "(" ++ args ++ lit ") {" ++ [NL] ++ body) Hfree
                    [] (c :: l) eq_refl) as Hag.
      rewrite <- H2, starts_with_app in Hag.
      assert (Hin : str_in L (c :: l) = true) by (apply str_in_head; symmetry; now apply Hag).
      rewrite H1, (str_in_app_r L a0 _ Hin) in HA. discriminate.
    - assert (l = []) as ->.
      { rewrite Hst, H1, length_app in Hle. destruct l; [reflexivity|simpl in Hle; lia]. }
      now rewrite app_nil_r in H1. }
  subst a0. apply app_inv_head in E. rewrite <- !app_assoc in E. apply app_inv_head in E.
  (* and the name, the parameters and the brace are those of the declaration *)
  change (lit "(" ++ ?x) with (40%N :: x) in E.
  apply span_unique with (f := is_word uni_alnum) in E as [<- E];
    [| exact Hname | exact Hname' | reflexivity | reflexivity].
  injection E as E.
  change (lit ") {" ++ ?x) with (41%N :: (lit " {" ++ x)) in E.
  apply span_unique with (f := not_rparen) in E as [<- E];
    [| exact Hargs | exact Hargs' | reflexivity | reflexivity].
  injection E as E. subst r0.
  now rewrite <- !app_assoc.
Qed.

End Fallback.

Section FallbackRun.

Variable uni_alnum : char -> bool.

(** The migration of a file without a two-space-indented try block. *)
Lemma rewrite_fallback_shape (auth_type : string) (pre name args stmts w l rest : text) :
  is_mode auth_type ->
  async_function_shape uni_alnum pre name args stmts w l rest ->
  rewrite uni_alnum auth_type
    (async_function_file pre name args (usage_body stmts w l rest)) =
  fallback_file auth_type pre name args (usage_body stmts w l rest).
Proof.
  intros Hm (Hleg & Hfirst & Hne & Hname & Hargs & Hsupa & Htry & Hlegrest &
             Hstmts & Hw & Hws & Hl).
  rewrite rewrite_mode by exact Hm. unfold migrate, fallback_file.
  remember (usage_body stmts w l rest) as body eqn:Hb.
  remember (lit "export async function ") as L eqn:HL.
  assert (HLfree : straddle_free legacy_import L = true)
    by (rewrite HL; vm_compute; reflexivity).
  assert (HLocc : occ legacy_import L = 0) by (rewrite HL; vm_compute; reflexivity).
  (* the text after the import replacement *)
  assert (Htry' : str_in try_open
                    (str_replace legacy_import (replacement_import auth_type)
                       (async_function_file pre name args body)) = false).
  { rewrite str_in_replace_neutral; [exact Htry|exact Hm|vm_compute; reflexivity]. }
  assert (Hdecl : str_in legacy_import (name ++ lit "(" ++ args ++ lit ") {") = false).
  { destruct (str_in legacy_import (name ++ lit "(" ++ args ++ lit ") {")) eqn:E;
      [|reflexivity].
    apply str_in_weaken with (b := [NL] ++ body) in E.
    rewrite <- !app_assoc in E. congruence. }
  assert (Hsupa' : str_in (lit "supabase.")
                     (str_replace legacy_import (replacement_import auth_type) pre
                      ++ L ++ name ++ lit "(" ++ args ++ lit ") {") = false).
  { rewrite <- (replace_id legacy_import (replacement_import auth_type) legacy_free
                  (name ++ lit "(" ++ args ++ lit ") {"))
      by (now apply str_in_false_occ).
    rewrite <- (replace_sandwich legacy_import _ legacy_free L pre _ HLfree HLocc).
    rewrite str_in_replace_neutral; [exact Hsupa|exact Hm|vm_compute; reflexivity]. }
  unfold async_function_file in *. rewrite <- HL in *.
  rewrite (replace_sandwich legacy_import _ legacy_free L pre _ HLfree HLocc) in Htry' |- *.
  rewrite (replace_id legacy_import (replacement_import auth_type) legacy_free
             (name ++ lit "(" ++ args ++ lit ") {" ++ [NL] ++ body)) in Htry' |- *
    by (now apply str_in_false_occ).
  remember (str_replace legacy_import (replacement_import auth_type) pre) as A eqn:HA.
  assert (HAfirst : str_in L A = false).
  { rewrite HA, HL, str_in_replace_neutral;
      [rewrite <- HL; exact Hfirst|exact Hm|vm_compute; reflexivity]. }
  remember (A ++ L ++ name ++ lit "(" ++ args ++ lit ") {" ++ [NL] ++ body) as c' eqn:Hc'.
  assert (Hsplit : c' = ((A ++ L ++ name ++ lit "(" ++ args ++ lit ") ") ++ lit "{")
                        ++ [NL] ++ body).
  { rewrite Hc', <- !app_assoc. reflexivity. }
  (* the usage pattern matches *)
  assert (Huse : exists P, c' = P ++ ([NL] ++ w ++ l ++ [] ++ lit "supabase.") ++ rest).
  { rewrite Hc', Hb. unfold usage_body. destruct Hstmts as [-> | (s0 & ->)].
    - exists (A ++ L ++ name ++ lit "(" ++ args ++ lit ") {").
      now rewrite <- !app_assoc.
    - exists (A ++ L ++ name ++ lit "(" ++ args ++ lit ") {" ++ [NL] ++ s0).
      now rewrite <- !app_assoc. }
  destruct Huse as (P & HP).
  assert (Hlang : regex_lang first_usage_pattern ([NL] ++ w ++ l ++ [] ++ lit "supabase.")).
  { apply first_usage_lang. exists w, l, []. repeat split; auto. }
  destruct (search_from_complete first_usage_pattern P _ 0
              (match_here_complete _ _ rest Hlang)) as (mt & Hs & _).
  rewrite <- HP in Hs. unfold re_search. rewrite Hs.
  (* and starts after the declaration line *)
  destruct (search_from_sound _ _ _ _ Hs) as (a0 & m & r0 & E & Hm0 & Hst & _).
  assert (Hfirstn : firstn (m_start mt) c' = a0).
  { rewrite Hst, E. apply firstn_exact. }
  rewrite Hfirstn.
  assert (Ha1 : exists a1,
            a0 = ((A ++ L ++ name ++ lit "(" ++ args ++ lit ") ") ++ lit "{") ++ a1).
  { apply (usage_after_decl _ body a0 m r0); [|exact Hm0|now rewrite <- E].
    rewrite <- !app_assoc. exact Hsupa'. }
  destruct Ha1 as (a1 & ->).
  rewrite scan_back_found.
  2:{ apply existsb_rev_true.
      assert (Hline : existsb (str_in export_async_function)
                        (split_nl (((A ++ L ++ name ++ lit "(" ++ args ++ lit ") ")
                                    ++ lit "{") ++ a1)) = true).
      { apply split_nl_has_line; [reflexivity|].
        rewrite HL. change (lit "export async function ")
          with (export_async_function ++ lit " ").
        rewrite <- !app_assoc. apply str_in_intro. }
      apply existsb_exists in Hline as (x & Hin & Hx).
      apply existsb_exists. exists x. split; [exact Hin|]. now rewrite Hx. }
  unfold insert_client. rewrite Htry', Hc', HL.
  apply func_sub_shape; [rewrite <- HL; exact HAfirst|exact Hne|exact Hname|exact Hargs].
Qed.

(** X9. A file without a two-space-indented try-block opening: a header
    with the legacy import and no [export async function]; then the first
    async exported function, declared on one line as
    [export async function NAME(ARGS) {] with a name of word characters and
    no closing parenthesis among its parameters; then its body, which after
    complete lines has an indented line that uses the client.  The client
    is not named up to the end of the declaration line and the legacy import
    is not repeated after the header.  Processed in mode "user" or
    "service", the file is written back with the import replaced and the
    mode's statement, indented by two spaces, directly after the opening
    line of that function; "fixed" is printed and [fix_file] returns
    [True]. *)
Theorem X9_statement_after_function_opening
    (filepath auth_type : string) (pre name args stmts w l rest : text) (wd : world) :
  is_mode auth_type ->
  files wd filepath =
  TextFile (async_function_file pre name args (usage_body stmts w l rest)) ->
  async_function_shape uni_alnum pre name args stmts w l rest ->
  fix_file uni_alnum filepath auth_type wd =
  (Returned true,
   {| files := set_file (files wd) filepath
                 (TextFile (fallback_file auth_type pre name args
                              (usage_body stmts w l rest)));
      console := console wd ++ [Fixed filepath auth_type] |}).
Proof.
  intros Hm Hf Hshape.
  rewrite <- (rewrite_fallback_shape auth_type pre name args stmts w l rest Hm Hshape).
  apply fix_file_rewrites; [exact Hf| |exact Hm].
  destruct Hshape as (Hleg & _). unfold async_function_file. now apply str_in_weaken.
Qed.

End FallbackRun.

(** ** The further properties at concrete files *)

Lemma two_routes_openable : openable files_to_fix two_routes.
Proof.
  intros filepath auth_type _. unfold two_routes. cbn [files]. unfold set_file.
  destruct (String.eqb filepath health_route); [discriminate|].
  destruct (String.eqb filepath status_route); discriminate.
Qed.

Lemma status_route_listed : In (status_route, "user"%string) files_to_fix.
Proof.
  unfold files_to_fix, status_route. repeat first [left; reflexivity | right].
Qed.

Lemma plain_shape :
  async_function_shape no_alnum_beyond_ascii
    plain_pre plain_name plain_args [] plain_indent plain_line plain_rest.
Proof.
  unfold async_function_shape. repeat split; try (vm_compute; reflexivity).
  - discriminate.
  - now left.
  - discriminate.
Qed.

Lemma X3_witness :
  is_mode "user" /\
  (rewrite no_alnum_beyond_ascii "user" route =
   str_replace legacy_import (replacement_import "user") route \/
   exists x y stmt,
     str_replace legacy_import (replacement_import "user") route = x ++ [NL] ++ y /\
     rewrite no_alnum_beyond_ascii "user" route = x ++ [NL] ++ stmt ++ y /\
     (stmt = try_stmt_of "user" \/ stmt = func_stmt_of "user")).
Proof.
  split; [now left|].
  exact (X3_at_most_one_statement no_alnum_beyond_ascii "user" route (or_introl eq_refl)).
Defined.

Lemma X4_witness :
  openable files_to_fix two_routes /\
  exists w',
    main no_alnum_beyond_ascii two_routes =
    (Returned
       (length (filter (fun t => exists_on two_routes (fst t)) files_to_fix),
        length (filter (fun t => negb (exists_on two_routes (fst t))) files_to_fix)),
     w').
Proof.
  split; [exact two_routes_openable|].
  exact (X4_tallies_count_existing_files no_alnum_beyond_ascii two_routes
           two_routes_openable).
Defined.

Lemma X5_witness :
  openable files_to_fix two_routes /\
  exists counts w' status,
    main no_alnum_beyond_ascii two_routes = (Returned counts, w') /\
    console w' =
    console two_routes ++ [Banner] ++ status ++ summary (fst counts) (snd counts) /\
    map report_path status = map (fun t => Some (fst t)) files_to_fix.
Proof.
  split; [exact two_routes_openable|].
  exact (X5_status_lines_follow_the_task_list no_alnum_beyond_ascii two_routes
           two_routes_openable).
Defined.

Lemma X6_witness :
  openable files_to_fix two_routes /\
  In (status_route, "user"%string) files_to_fix /\
  migrated_at (snd (main no_alnum_beyond_ascii two_routes)) status_route.
Proof.
  split; [exact two_routes_openable|]. split; [exact status_route_listed|].
  exact (X6_no_legacy_import_after_the_run no_alnum_beyond_ascii two_routes
           status_route "user" two_routes_openable status_route_listed).
Defined.

Lemma X7_witness :
  openable files_to_fix two_routes /\
  exists counts w1 w2,
    main no_alnum_beyond_ascii two_routes = (Returned counts, w1) /\
    main no_alnum_beyond_ascii w1 = (Returned counts, w2) /\
    files w2 = files w1.
Proof.
  split; [exact two_routes_openable|].
  exact (X7_second_run_changes_no_file no_alnum_beyond_ascii two_routes
           two_routes_openable).
Defined.

Lemma X8_witness :
  files (single status_route (TextFile arrow_handler)) status_route =
  TextFile arrow_handler /\
  str_in legacy_import arrow_handler = true /\
  is_mode "user" /\
  str_in export_function arrow_handler = false /\
  str_in export_async_function arrow_handler = false /\
  fix_file no_alnum_beyond_ascii status_route "user"
    (single status_route (TextFile arrow_handler)) =
  (Returned true,
   {| files := set_file (files (single status_route (TextFile arrow_handler)))
                 status_route
                 (TextFile (str_replace legacy_import (replacement_import "user")
                              arrow_handler));
      console := console (single status_route (TextFile arrow_handler))
                 ++ [Fixed status_route "user"] |}).
Proof.
  assert (Hin : str_in legacy_import arrow_handler = true) by (vm_compute; reflexivity).
  assert (Hfun : str_in export_function arrow_handler = false)
    by (vm_compute; reflexivity).
  assert (Hasync : str_in export_async_function arrow_handler = false)
    by (vm_compute; reflexivity).
  split; [reflexivity|]. split; [exact Hin|]. split; [now left|].
  split; [exact Hfun|]. split; [exact Hasync|].
  exact (X8_no_declaration_no_statement no_alnum_beyond_ascii status_route "user"
           arrow_handler (single status_route (TextFile arrow_handler))
           eq_refl Hin (or_introl eq_refl) Hfun Hasync).
Defined.

Lemma X9_witness :
  is_mode "service" /\
  files (single health_route
           (TextFile (async_function_file plain_pre plain_name plain_args
                        (usage_body [] plain_indent plain_line plain_rest))))
    health_route =
  TextFile (async_function_file plain_pre plain_name plain_args
              (usage_body [] plain_indent plain_line plain_rest)) /\
  async_function_shape no_alnum_beyond_ascii
    plain_pre plain_name plain_args [] plain_indent plain_line plain_rest /\
  fix_file no_alnum_beyond_ascii health_route "service"
    (single health_route
       (TextFile (async_function_file plain_pre plain_name plain_args
                    (usage_body [] plain_indent plain_line plain_rest)))) =
  (Returned true,
   {| files := set_file
                 (files (single health_route
                           (TextFile (async_function_file plain_pre plain_name plain_args
                                        (usage_body [] plain_indent plain_line
                                           plain_rest)))))
                 health_route
                 (TextFile (fallback_file "service" plain_pre plain_name plain_args
                              (usage_body [] plain_indent plain_line plain_rest)));
      console := console (single health_route
                            (TextFile (async_function_file plain_pre plain_name
                                         plain_args
                                         (usage_body [] plain_indent plain_line
                                            plain_rest))))
                 ++ [Fixed health_route "service"] |}).
Proof.
  split; [now right|]. split; [reflexivity|]. split; [exact plain_shape|].
  exact (X9_statement_after_function_opening no_alnum_beyond_ascii health_route "service"
           plain_pre plain_name plain_args [] plain_indent plain_line plain_rest
           (single health_route
              (TextFile (async_function_file plain_pre plain_name plain_args
                           (usage_body [] plain_indent plain_line plain_rest))))
           (or_intror eq_refl) eq_refl plain_shape).
Defined.
